(** * heredity: exact inference over a family pedigree

    A shallow embedding of [src/heredity.py].  Python dictionaries keyed by
    person names are finite maps ([gmap string _]), Python sets of names are
    [gset string], and the exceptions the code can raise are the constructors
    of [exn], threaded through a small error monad.

    Numbers: the program computes with Python floats.  Here every probability
    is an exact rational ([Qc], canonical fractions with Leibniz equality), so
    the statements below are about the arithmetic the program approximates;
    binary64 rounding is outside this model.

    In the source the last line of [child_parent_prob] ([return prob]) is
    indented by three columns; it is read here as the final statement of the
    function body. *)

From Stdlib Require Import QArith Qcanon.
From stdpp Require Import numbers gmap strings list fin_maps fin_sets.

#[local] Set Warnings "-clear-no-such-hyp".

Local Open Scope Z_scope.
Local Open Scope Qc_scope.

(** ** Exceptions and the error monad *)

Inductive exn : Set :=
  | KeyError
  | UnboundLocalError
  | ZeroDivisionError.

Inductive result (A : Type) : Type :=
  | Ok (a : A)
  | Raise (e : exn).

Arguments Ok {A} a.
Arguments Raise {A} e.

Global Instance result_ret : MRet result := λ A, Ok.
Global Instance result_bind : MBind result := λ A B f m,
  match m with
  | Ok a => f a
  | Raise e => Raise e
  end.

(** A [for] loop whose body may raise: the state is threaded from left to
    right and the first exception leaves the loop. *)
Fixpoint for_each {A S : Type} (body : S → A → result S) (l : list A) (s : S)
  : result S :=
  match l with
  | [] => Ok s
  | x :: l' => s' ← body s x; for_each body l' s'
  end.

(** ** Probability tables *)

Definition dec (n : Z) (d : positive) : Qc := Q2Qc (n # d).

(** [PROBS["gene"]] *)
Definition PROBS_gene (g : Z) : result Qc :=
  match g with
  | 2%Z => Ok (dec 1 100)
  | 1%Z => Ok (dec 3 100)
  | 0%Z => Ok (dec 96 100)
  | _ => Raise KeyError
  end.

(** [PROBS["trait"]] *)
Definition PROBS_trait (g : Z) (t : bool) : result Qc :=
  match g with
  | 2%Z => Ok (if t then dec 65 100 else dec 35 100)
  | 1%Z => Ok (if t then dec 56 100 else dec 44 100)
  | 0%Z => Ok (if t then dec 1 100 else dec 99 100)
  | _ => Raise KeyError
  end.

(** [PROBS["mutation"]] *)
Definition PROBS_mutation : Qc := dec 1 100.

(** [PARENT_PROB["parent"]]: for a parent with [g] copies, the probability of
    passing on a normal allele (key 0) or a mutant one (key 1). *)
Definition PARENT_PROB_parent (g : Z) (k : Z) : result Qc :=
  match g with
  | 0%Z => match k with
           | 0%Z => Ok (1 - PROBS_mutation)
           | 1%Z => Ok PROBS_mutation
           | _ => Raise KeyError
           end
  | 1%Z => match k with
           | 0%Z => Ok (dec 1 2)
           | 1%Z => Ok (dec 1 2)
           | _ => Raise KeyError
           end
  | 2%Z => match k with
           | 0%Z => Ok PROBS_mutation
           | 1%Z => Ok (1 - PROBS_mutation)
           | _ => Raise KeyError
           end
  | _ => Raise KeyError
  end.

(** ** Pedigree records and hypotheses *)

(** One row of the table built by [load_data]; a blank mother, father or
    trait is [None]. *)
Record person : Type := Person {
  p_name : string;
  p_mother : option string;
  p_father : option string;
  p_trait : option bool
}.

(** One entry of the [request] dictionary: [{"gene": _, "trait": _}]. *)
Record req : Type := Req {
  r_gene : Z;
  r_trait : bool
}.

(** Python truth value of a name-or-[None]: [None] and the empty string are
    false. *)
Definition truthy (v : option string) : bool :=
  match v with
  | Some s => negb (String.eqb s "")
  | None => false
  end.

(** [d[k]] for a key that is a name or [None]. *)
Definition getitem {V : Type} (d : gmap string V) (k : option string)
  : result V :=
  match k with
  | Some s => match d !! s with
              | Some v => Ok v
              | None => Raise KeyError
              end
  | None => Raise KeyError
  end.

(** The expression [PARENT_PROB["parent"][request[parent]["gene"]][k]]. *)
Definition transmit (request : gmap string req) (parent : option string)
  (k : Z) : result Qc :=
  r ← getitem request parent;
  PARENT_PROB_parent (r_gene r) k.

Definition child_parent_prob (child : string) (people : gmap string person)
  (request : gmap string req) : result Qc :=
  pc ← getitem people (Some child);
  if truthy (p_mother pc) then
    let mum := p_mother pc in
    let dad := p_father pc in
    rc ← getitem request (Some child);
    let child_gene_no := r_gene rc in
    if (child_gene_no =? 0)%Z then
      a ← transmit request mum 0;
      b ← transmit request dad 0;
      Ok (a * b)
    else if (child_gene_no =? 1)%Z then
      a ← transmit request mum 1;
      b ← transmit request dad 1;
      a' ← transmit request mum 1;
      b' ← transmit request dad 1;
      Ok (a * (1 - b) + (1 - a') * b')
    else if (child_gene_no =? 2)%Z then
      a ← transmit request mum 1;
      b ← transmit request dad 1;
      Ok (a * b)
    else Raise UnboundLocalError
  else
    rc ← getitem request (Some child);
    PROBS_gene (r_gene rc).

(** ** Enumerating subsets *)

(** [itertools.combinations(l, r)]: the [r]-element subsequences of [l], in
    lexicographic order of positions. *)
Fixpoint combinations {A : Type} (l : list A) (r : nat) : list (list A) :=
  match r with
  | O => [[]]
  | S r' =>
      match l with
      | [] => []
      | x :: l' => (cons x <$> combinations l' r') ++ combinations l' r
      end
  end.

(** The order in which a Python set is listed is not specified by the
    language; [elements] plays the part of [list(s)]. *)
Definition powerset (s : gset string) : list (gset string) :=
  let s := elements s in
  list_to_set <$> (seq 0 (length s + 1) ≫= combinations s).

(** ** The joint probability of one hypothesis *)

(** The values of the local variables [gene_no] and [trait_prop] that both
    [joint_probability] and [update] compute for a name. *)
Definition gene_no (one_gene two_genes : gset string) (name : string) : Z :=
  if bool_decide (name ∈ one_gene) then 1%Z
  else if bool_decide (name ∈ two_genes) then 2%Z
  else 0%Z.

Definition trait_prop (have_trait : gset string) (name : string) : bool :=
  if bool_decide (name ∈ have_trait) then true else false.

(** The loop that opens both [joint_probability] and [update]: it records,
    for every name, the gene count and the trait the hypothesis gives it. *)
Definition build_request (names : list string)
  (one_gene two_genes have_trait : gset string) : gmap string req :=
  foldl (λ request name,
    <[name := Req (gene_no one_gene two_genes name)
                  (trait_prop have_trait name)]> request) ∅ names.

(** [list(d.keys())].  Python lists the keys in the order of insertion,
    [map_to_list] in an order of its own; the loops over the keys below
    multiply or update entry by entry, so their results do not depend on
    it. *)
Definition keys {V : Type} (d : gmap string V) : list string :=
  (map_to_list d).*1.

Definition joint_probability (people : gmap string person)
  (one_gene two_genes have_trait : gset string) : result Qc :=
  let names := keys people in
  let request := build_request names one_gene two_genes have_trait in
  for_each (λ total_prob name,
    let current_prob := 1 in
    cp ← child_parent_prob name people request;
    let current_prob := current_prob * cp in
    r ← getitem request (Some name);
    t ← PROBS_trait (r_gene r) (r_trait r);
    let current_prob := current_prob * t in
    Ok (total_prob * current_prob)) names 1.

(** ** The accumulator *)

(** [{"gene": {2: _, 1: _, 0: _}, "trait": {True: _, False: _}}] *)
Record dist : Type := Dist {
  gene0 : Qc;
  gene1 : Qc;
  gene2 : Qc;
  traitT : Qc;
  traitF : Qc
}.

Definition zero_dist : dist := Dist 0 0 0 0 0.

(** [d["gene"][g] += p] *)
Definition add_gene (d : dist) (g : Z) (p : Qc) : result dist :=
  match g with
  | 0%Z => Ok (Dist (gene0 d + p) (gene1 d) (gene2 d) (traitT d) (traitF d))
  | 1%Z => Ok (Dist (gene0 d) (gene1 d + p) (gene2 d) (traitT d) (traitF d))
  | 2%Z => Ok (Dist (gene0 d) (gene1 d) (gene2 d + p) (traitT d) (traitF d))
  | _ => Raise KeyError
  end.

(** [d["trait"][t] += p] *)
Definition add_trait (d : dist) (t : bool) (p : Qc) : dist :=
  if t then Dist (gene0 d) (gene1 d) (gene2 d) (traitT d + p) (traitF d)
  else Dist (gene0 d) (gene1 d) (gene2 d) (traitT d) (traitF d + p).

Definition update (probabilities : gmap string dist)
  (one_gene two_genes have_trait : gset string) (p : Qc)
  : result (gmap string dist) :=
  let names := keys probabilities in
  let request := build_request names one_gene two_genes have_trait in
  for_each (λ probabilities name,
    d ← getitem probabilities (Some name);
    r ← getitem request (Some name);
    d ← add_gene d (r_gene r) p;
    let d := add_trait d (r_trait r) p in
    Ok (<[name := d]> probabilities)) names probabilities.

(** Python's [x / y] on numbers. *)
Definition div (x y : Qc) : result Qc :=
  if decide (y = 0) then Raise ZeroDivisionError else Ok (x / y).

Definition gene_sum (d : dist) : Qc := gene0 d + gene1 d + gene2 d.
Definition trait_sum (d : dist) : Qc := traitF d + traitT d.

(** The body of the loop of [normalize], for one person. *)
Definition normalize_person (d : dist) : result dist :=
  let gene_sum := gene_sum d in
  let trait_sum := trait_sum d in
  g0 ← div (gene0 d) gene_sum;
  g1 ← div (gene1 d) gene_sum;
  g2 ← div (gene2 d) gene_sum;
  tT ← div (traitT d) trait_sum;
  tF ← div (traitF d) trait_sum;
  Ok (Dist g0 g1 g2 tT tF).

Definition normalize (probabilities : gmap string dist)
  : result (gmap string dist) :=
  for_each (λ probabilities person,
    d ← getitem probabilities (Some person);
    d ← normalize_person d;
    Ok (<[person := d]> probabilities)) (keys probabilities) probabilities.

(** ** The inference driver *)

(** [any(f(x) for x in l)]: stops at the first true element. *)
Fixpoint any_of {A : Type} (f : A → result bool) (l : list A) : result bool :=
  match l with
  | [] => Ok false
  | x :: l' => f x ≫= λ b : bool, if b then Ok true else any_of f l'
  end.

(** [t is not None and t != b] *)
Definition contradicts (t : option bool) (b : bool) : bool :=
  match t with
  | Some t => negb (eqb t b)
  | None => false
  end.

Definition fails_evidence (people : gmap string person) (names : gset string)
  (have_trait : gset string) : result bool :=
  any_of (λ person : string,
    pc ← getitem people (Some person);
    Ok (contradicts (p_trait pc) (bool_decide (person ∈ have_trait))))
    (elements names).

(** The three nested loops of [main], from the initial table to the table
    handed to [normalize]. *)
Definition main_loop (people : gmap string person)
  : result (gmap string dist) :=
  let probabilities := (λ _, zero_dist) <$> people in
  let names := dom people in
  for_each (λ probabilities have_trait,
    fails_evidence people names have_trait ≫= λ fails : bool,
    if fails then Ok probabilities else
    for_each (λ probabilities one_gene,
      for_each (λ probabilities two_genes,
        p ← joint_probability people one_gene two_genes have_trait;
        update probabilities one_gene two_genes have_trait p)
        (powerset (names ∖ one_gene)) probabilities)
      (powerset names) probabilities)
    (powerset names) probabilities.

(** [main] between [load_data] and the printing of the table. *)
Definition main (people : gmap string person) : result (gmap string dist) :=
  probabilities ← main_loop people;
  normalize probabilities.

(** ** The hypotheses the driver goes through

    The nested loops of [main_loop], flattened: [hypotheses names] lists the
    triples (one_gene, two_genes, have_trait) in the order the loops reach
    them when no trait set is skipped. *)
Definition gene_pairs (names : gset string)
  : list (gset string * gset string) :=
  powerset names ≫= λ one_gene,
    (λ two_genes, (one_gene, two_genes)) <$> powerset (names ∖ one_gene).

Definition hypotheses (names : gset string)
  : list (gset string * gset string * gset string) :=
  powerset names ≫= λ have_trait,
    (λ '(one_gene, two_genes), (one_gene, two_genes, have_trait))
      <$> gene_pairs names.

(** The test of [fails_evidence] as a boolean, for a table that has every
    name of [names]. *)
Definition violates (people : gmap string person) (have_trait : gset string)
  : bool :=
  existsb (λ person,
    match people !! person with
    | Some pc =>
        contradicts (p_trait pc) (bool_decide (person ∈ have_trait))
    | None => false
    end) (elements (dom people)).

(** The body of the innermost loop. *)
Definition step (people : gmap string person)
  (probabilities : gmap string dist)
  (h : gset string * gset string * gset string)
  : result (gmap string dist) :=
  let '(one_gene, two_genes, have_trait) := h in
  p ← joint_probability people one_gene two_genes have_trait;
  update probabilities one_gene two_genes have_trait p.

(** The hypotheses that reach [joint_probability]. *)
Definition evaluated (people : gmap string person)
  : list (gset string * gset string * gset string) :=
  filter (λ h, violates people h.2 = false) (hypotheses (dom people)).

(** All subsequences of a list, by the usual recursion; [powerset] lists the
    same subsequences grouped by length. *)
Fixpoint sublists {A : Type} (l : list A) : list (list A) :=
  match l with
  | [] => [[]]
  | x :: l' => (cons x <$> sublists l') ++ sublists l'
  end.

(** ** What the accumulator loops compute, per person *)

(** The effect of one call of [update] on the entry of [name]. *)
Definition bump (one_gene two_genes have_trait : gset string) (p : Qc)
  (name : string) (d : dist) : dist :=
  let d :=
    match gene_no one_gene two_genes name with
    | 1%Z => Dist (gene0 d) (gene1 d + p) (gene2 d) (traitT d) (traitF d)
    | 2%Z => Dist (gene0 d) (gene1 d) (gene2 d + p) (traitT d) (traitF d)
    | _ => Dist (gene0 d + p) (gene1 d) (gene2 d) (traitT d) (traitF d)
    end in
  add_trait d (trait_prop have_trait name) p.

(** The entry of a person after [normalize], when no total is zero. *)
Definition norm_dist (d : dist) : dist :=
  Dist (gene0 d / gene_sum d) (gene1 d / gene_sum d) (gene2 d / gene_sum d)
       (traitT d / trait_sum d) (traitF d / trait_sum d).

(** The trait bucket for the value [b]. *)
Definition trait_bucket (d : dist) (b : bool) : Qc :=
  if b then traitT d else traitF d.

(** A total of this entry is zero. *)
Definition zero_total (d : dist) : Prop := gene_sum d = 0 ∨ trait_sum d = 0.

(** ** Well-formed pedigrees *)

(** What [load_data] promises about a row: the mother and the father are both
    blank, or both are names of rows of the table (a blank cell is [None],
    never the empty string). *)
Definition wf_person (people : gmap string person) (pc : person) : bool :=
  match p_mother pc, p_father pc with
  | None, None => true
  | Some m, Some f =>
      negb (String.eqb m "") && negb (String.eqb f "")
      && bool_decide (m ∈ dom people) && bool_decide (f ∈ dom people)
  | _, _ => false
  end.

Definition wf_pedigree (people : gmap string person) : Prop :=
  map_Forall (λ _ pc, wf_person people pc = true) people.

Global Instance wf_pedigree_dec (people : gmap string person) :
  Decision (wf_pedigree people).
Proof. unfold wf_pedigree. apply _. Defined.

(** A founder has no recorded parents. *)
Definition is_founder (pc : person) : bool :=
  match p_mother pc, p_father pc with
  | None, None => true
  | _, _ => false
  end.

(** The gene counts the enumeration can produce. *)
Definition gene_count (g : Z) : Prop := g = 0%Z ∨ g = 1%Z ∨ g = 2%Z.

(** [request[name]["gene"] == g] *)
Definition assigns (request : gmap string req) (name : string) (g : Z)
  : Prop :=
  r_gene <$> request !! name = Some g.

(** ** The factorization, as the specification words it

    A hypothesis is a complete assignment: a gene count and a trait status
    for every name. *)

(** The entry of a table at a key it has. *)
Definition entry (r : result Qc) : Qc :=
  match r with
  | Ok p => p
  | Raise _ => 0
  end.

(** The probability that a parent with [g] copies passes on a mutant allele. *)
Definition spec_mutant (g : Z) : Qc := entry (PARENT_PROB_parent g 1).

(** The two-independent-allele-transmission model: the probability of [k]
    copies for a child whose mother and father pass on a mutant allele with
    probabilities [m] and [f]. *)
Definition spec_inherit (m f : Qc) (k : Z) : Qc :=
  match k with
  | 0%Z => (1 - m) * (1 - f)
  | 1%Z => m * (1 - f) + (1 - m) * f
  | _ => m * f
  end.

(** The gene factor of one person: the prior for a founder, the
    parent-conditioned probability otherwise. *)
Definition spec_gene_factor (gene : string → Z) (name : string) (pc : person)
  : Qc :=
  match p_mother pc, p_father pc with
  | Some mum, Some dad =>
      spec_inherit (spec_mutant (gene mum)) (spec_mutant (gene dad))
        (gene name)
  | _, _ => entry (PROBS_gene (gene name))
  end.

Definition spec_factor (gene : string → Z) (trait : string → bool)
  (name : string) (pc : person) : Qc :=
  entry (PROBS_trait (gene name) (trait name)) * spec_gene_factor gene name pc.

Definition prod_list (l : list Qc) : Qc := foldr Qcmult 1 l.

Definition spec_joint (people : gmap string person) (gene : string → Z)
  (trait : string → bool) : Qc :=
  prod_list ((λ '(name, pc), spec_factor gene trait name pc)
               <$> map_to_list people).

(** The three sets by which [main] hands an assignment to
    [joint_probability]. *)
Definition one_gene_of (people : gmap string person) (gene : string → Z)
  : gset string :=
  filter (λ name, gene name = 1%Z) (dom people).

Definition two_genes_of (people : gmap string person) (gene : string → Z)
  : gset string :=
  filter (λ name, gene name = 2%Z) (dom people).

Definition have_trait_of (people : gmap string person)
  (trait : string → bool) : gset string :=
  filter (λ name, trait name = true) (dom people).

(** The joint probability of a hypothesis, by the factorization. *)
Definition joint_of (people : gmap string person)
  (h : gset string * gset string * gset string) : Qc :=
  spec_joint people (gene_no h.1.1 h.1.2) (trait_prop h.2).

(** The entry of [name] after the updates for the hypotheses [hs]. *)
Definition tally (people : gmap string person)
  (hs : list (gset string * gset string * gset string)) (name : string)
  (d : dist) : dist :=
  foldl (λ d h, bump h.1.1 h.1.2 h.2 (joint_of people h) name d) d hs.

(** The probability mass of the hypotheses [hs]. *)
Definition mass (people : gmap string person)
  (hs : list (gset string * gset string * gset string)) : Qc :=
  foldr (λ h acc, joint_of people h + acc) 0 hs.

(** The people observed to show the trait. *)
Definition observed_true (people : gmap string person) : gset string :=
  filter (λ name, people !! name ≫= p_trait = Some true) (dom people).

(** The people without an observation of the trait. *)
Definition unobserved (people : gmap string person) : gset string :=
  filter (λ name, people !! name ≫= p_trait = None) (dom people).

(** ** Sample pedigrees *)

(** A child with two founders for parents; the trait of both parents is
    known. *)
Definition family : gmap string person :=
  {[ "Harry" := Person "Harry" (Some "Lily") (Some "James") None;
     "James" := Person "James" None None (Some true);
     "Lily" := Person "Lily" None None (Some false) ]}.

(** A single founder without observation. *)
Definition single_founder (name : string) : gmap string person :=
  {[ name := Person name None None None ]}.

(** A hypothesis for [family]: Harry one copy, James two, Lily none, and
    only James shows the trait. *)
Definition sample_gene (name : string) : Z :=
  if String.eqb name "Harry" then 1%Z
  else if String.eqb name "James" then 2%Z
  else 0%Z.

Definition sample_trait (name : string) : bool := String.eqb name "James".

(** [request] fixes the gene counts of a child and of its two parents. *)
Definition fixes (request : gmap string req) (child mum dad : string)
  (k gm gf : Z) : Prop :=
  assigns request child k ∧ assigns request mum gm ∧ assigns request dad gf.

(** A request with a gene count no enumeration produces. *)
Definition bad_request : gmap string req :=
  {[ "Harry" := Req 3 false; "James" := Req 0 false; "Lily" := Req 0 false ]}.

(** A table whose only row names a mother that has no row of her own. *)
Definition orphan : gmap string person :=
  {[ "Tom" := Person "Tom" (Some "Ann") (Some "Bob") None ]}.

(** The numbers of an entry, as plain fractions. *)
Definition fractions (d : dist) : list Q :=
  [this (gene0 d); this (gene1 d); this (gene2 d);
   this (traitT d); this (traitF d)].

(** ** Loading the table

    [load_data] opens the file and lets [csv.DictReader] split it into rows;
    what is modelled is the loop over the rows it yields, each with the four
    cells [name], [mother], [father] and [trait] as strings. *)
Record row : Type := Row {
  row_name : string;
  row_mother : string;
  row_father : string;
  row_trait : string
}.

(** [s or None] *)
Definition or_none (s : string) : option string :=
  if String.eqb s "" then None else Some s.

(** [True if s == "1" else False if s == "0" else None] *)
Definition parse_trait (s : string) : option bool :=
  if String.eqb s "1" then Some true
  else if String.eqb s "0" then Some false
  else None.

Definition load_data (rows : list row) : gmap string person :=
  foldl (λ data row,
    let name := row_name row in
    <[name := Person name (or_none (row_mother row))
                (or_none (row_father row)) (parse_trait (row_trait row))]>
      data) ∅ rows.

(** The record [load_data] stores for a row. *)
Definition person_of_row (r : row) : person :=
  Person (row_name r) (or_none (row_mother r)) (or_none (row_father r))
    (parse_trait (row_trait r)).

(** The condition of the docstring of [load_data] on a row: mother and
    father are both blank, or both are names of rows. *)
Definition row_ok (rows : list row) (r : row) : bool :=
  (String.eqb (row_mother r) "" && String.eqb (row_father r) "")
  || (negb (String.eqb (row_mother r) "")
      && negb (String.eqb (row_father r) "")
      && bool_decide (row_mother r ∈ row_name <$> rows)
      && bool_decide (row_father r ∈ row_name <$> rows)).

(** The rows of the sample family, with a repeated and corrected row. *)
Definition family_rows : list row :=
  [ Row "Harry" "Lily" "James" "";
    Row "James" "" "" "0";
    Row "Lily" "" "" "0";
    Row "James" "" "" "1" ].

(** ** Parent references

    What [child_parent_prob] needs of a row to find the gene counts it
    reads: when the mother is set, the mother and the father are names of
    the table. *)
Definition resolves (people : gmap string person) (v : option string)
  : bool :=
  match v with
  | Some s => bool_decide (s ∈ dom people)
  | None => false
  end.

Definition parents_resolve (people : gmap string person) (pc : person)
  : bool :=
  if truthy (p_mother pc)
  then resolves people (p_mother pc) && resolves people (p_father pc)
  else true.

(** ** Sums over hypotheses *)

(** The number [joint_probability] returns for a hypothesis. *)
Definition weight (people : gmap string person)
  (h : gset string * gset string * gset string) : Qc :=
  entry (joint_probability people h.1.1 h.1.2 h.2).

(** The entry of [name] after updates for [hs] with the numbers [w]. *)
Definition tally_with (w : gset string * gset string * gset string → Qc)
  (hs : list (gset string * gset string * gset string)) (name : string)
  (d : dist) : dist :=
  foldl (λ d h, bump h.1.1 h.1.2 h.2 (w h) name d) d hs.

(** The sum of the numbers [w] over [hs]. *)
Definition mass_with (w : gset string * gset string * gset string → Qc)
  (hs : list (gset string * gset string * gset string)) : Qc :=
  foldr (λ h acc, w h + acc) 0 hs.

(** The gene bucket for the count [k]. *)
Definition gene_bucket (d : dist) (k : Z) : Qc :=
  match k with
  | 0%Z => gene0 d
  | 1%Z => gene1 d
  | _ => gene2 d
  end.

(** The table the three loops of [main] build, when no evaluation raises. *)
Definition accumulated (people : gmap string person) : gmap string dist :=
  map_imap (λ name d,
    Some (tally_with (weight people) (evaluated people) name d))
    ((λ _, zero_dist) <$> people).

(** A table of running sums for the sample family. *)
Definition sample_sums : gmap string dist :=
  {[ "Harry" := Dist (dec 1 4) (dec 1 2) (dec 1 1) (dec 3 10) (dec 1 10);
     "Lily" := Dist (dec 2 1) 0 0 0 (dec 5 1) ]}.

(** * Properties *)

(** ** The error monad and loops *)

Lemma bind_Ok {A B : Type} (a : A) (f : A → result B) : (Ok a ≫= f) = f a.
Proof. reflexivity. Qed.

Lemma bind_Raise {A B : Type} (e : exn) (f : A → result B) :
  (Raise e ≫= f) = Raise e.
Proof. reflexivity. Qed.

Lemma for_each_app {A S : Type} (body : S → A → result S) (l1 l2 : list A)
  (s : S) :
  for_each body (l1 ++ l2) s = for_each body l1 s ≫= for_each body l2.
Proof.
  revert s. induction l1 as [|x l1 IH]; intros s; simpl; [done|].
  destruct (body s x) as [s'|e]; simpl; [apply IH | done].
Qed.

Lemma getitem_Some {V : Type} (d : gmap string V) (k : string) (v : V) :
  d !! k = Some v → getitem d (Some k) = Ok v.
Proof. intros H. unfold getitem. by rewrite H. Qed.

(** ** Dictionary keys *)

Lemma elem_of_keys {V : Type} (d : gmap string V) (k : string) :
  k ∈ keys d ↔ is_Some (d !! k).
Proof.
  unfold keys. rewrite list_elem_of_fmap. split.
  - intros [[k' v] [-> H]]. apply elem_of_map_to_list in H. by exists v.
  - intros [v H]. exists (k, v). split; [done|]. by apply elem_of_map_to_list.
Qed.

Lemma NoDup_keys {V : Type} (d : gmap string V) : NoDup (keys d).
Proof. apply NoDup_fst_map_to_list. Qed.

(** ** The request dictionary *)

Lemma build_request_acc (names : list string) (one two ht : gset string)
  (acc : gmap string req) (name : string) :
  foldl (λ request name,
    <[name := Req (gene_no one two name) (trait_prop ht name)]> request)
    acc names !! name
  = if decide (name ∈ names)
    then Some (Req (gene_no one two name) (trait_prop ht name))
    else acc !! name.
Proof.
  revert acc. induction names as [|x names IH]; intros acc; cbn [foldl].
  - rewrite decide_False; [done | apply not_elem_of_nil].
  - rewrite IH. destruct (decide (name ∈ names)) as [Hin|Hin].
    + rewrite decide_True; [done | by right].
    + destruct (decide (name = x)) as [->|Hne].
      * rewrite lookup_insert_eq. rewrite decide_True; [done | by left].
      * rewrite lookup_insert_ne by done.
        rewrite decide_False; [done|]. by intros [?|?]%elem_of_cons.
Qed.

Lemma build_request_lookup (names : list string) (one two ht : gset string)
  (name : string) :
  name ∈ names →
  build_request names one two ht !! name
  = Some (Req (gene_no one two name) (trait_prop ht name)).
Proof.
  intros H. unfold build_request. rewrite build_request_acc.
  by rewrite decide_True.
Qed.

Lemma gene_no_count (one two : gset string) (name : string) :
  gene_count (gene_no one two name).
Proof.
  unfold gene_count, gene_no.
  repeat case_bool_decide; auto.
Qed.

(** ** The tables *)

Lemma PROBS_gene_pos (g : Z) :
  gene_count g → ∃ p, PROBS_gene g = Ok p ∧ 0 < p.
Proof. intros [-> | [-> | ->]]; eexists; (split; [reflexivity | done]). Qed.

Lemma PROBS_trait_pos (g : Z) (t : bool) :
  gene_count g → ∃ p, PROBS_trait g t = Ok p ∧ 0 < p.
Proof.
  intros [-> | [-> | ->]]; destruct t; eexists; (split; [reflexivity | done]).
Qed.

Lemma PARENT_PROB_parent_rows (g : Z) :
  gene_count g →
  ∃ n m, PARENT_PROB_parent g 0 = Ok n ∧ PARENT_PROB_parent g 1 = Ok m
         ∧ n = 1 - m ∧ 0 < m ∧ m < 1.
Proof.
  intros [-> | [-> | ->]]; do 2 eexists;
    (split; [reflexivity|]); (split; [reflexivity|]);
    (split; [by apply Qc_is_canon | done]).
Qed.

(** ** [child_parent_prob] *)

Lemma transmit_assigns (request : gmap string req) (name : string) (g k : Z) :
  assigns request name g →
  transmit request (Some name) k = PARENT_PROB_parent g k.
Proof.
  unfold assigns, transmit, getitem. intros H.
  destruct (request !! name) as [r|]; simplify_eq/=. done.
Qed.

Lemma truthy_Some (s : string) : truthy (Some s) = true ↔ s ≠ "".
Proof.
  simpl. rewrite negb_true_iff. split.
  - intros H ->. by rewrite String.eqb_refl in H.
  - intros H. by apply String.eqb_neq.
Qed.

Lemma wf_person_cases (people : gmap string person) (pc : person) :
  wf_person people pc = true →
  (is_founder pc = true ∧ truthy (p_mother pc) = false)
  ∨ (∃ mum dad, p_mother pc = Some mum ∧ p_father pc = Some dad
       ∧ truthy (p_mother pc) = true ∧ is_founder pc = false
       ∧ mum ∈ dom people ∧ dad ∈ dom people).
Proof.
  unfold wf_person, is_founder.
  destruct (p_mother pc) as [m|], (p_father pc) as [f|]; try done.
  - rewrite !andb_true_iff, !bool_decide_eq_true. intros [[[Hm _] ?] ?].
    right. exists m, f. by simpl.
  - intros _. by left.
Qed.

(** What the three live branches of a non-founder compute, once the entries
    of the child and of both parents are known. *)
Lemma child_parent_prob_nonfounder (people : gmap string person)
  (request : gmap string req) (child mum dad : string) (pc : person)
  (k gm gf : Z) :
  people !! child = Some pc →
  p_mother pc = Some mum → mum ≠ "" → p_father pc = Some dad →
  assigns request child k → assigns request mum gm → assigns request dad gf →
  child_parent_prob child people request =
    if (k =? 0)%Z then
      a ← PARENT_PROB_parent gm 0; b ← PARENT_PROB_parent gf 0; Ok (a * b)
    else if (k =? 1)%Z then
      a ← PARENT_PROB_parent gm 1; b ← PARENT_PROB_parent gf 1;
      Ok (a * (1 - b) + (1 - a) * b)
    else if (k =? 2)%Z then
      a ← PARENT_PROB_parent gm 1; b ← PARENT_PROB_parent gf 1; Ok (a * b)
    else Raise UnboundLocalError.
Proof.
  intros Hc Hm Hne Hf Hk Hgm Hgf. unfold child_parent_prob.
  rewrite (getitem_Some _ _ _ Hc), bind_Ok, Hm, Hf.
  rewrite (proj2 (truthy_Some mum) Hne).
  rewrite !(transmit_assigns _ _ _ _ Hgm), !(transmit_assigns _ _ _ _ Hgf).
  unfold assigns in Hk. unfold getitem.
  destruct (request !! child) as [rc|]; simplify_eq/=.
  repeat case_match; try done.
  all: destruct (PARENT_PROB_parent gm 1); simpl; try done.
  all: destruct (PARENT_PROB_parent gf 1); simpl; done.
Qed.

Lemma child_parent_prob_founder (people : gmap string person)
  (request : gmap string req) (child : string) (pc : person) (rc : req) :
  people !! child = Some pc → truthy (p_mother pc) = false →
  request !! child = Some rc →
  child_parent_prob child people request = PROBS_gene (r_gene rc).
Proof.
  intros Hc Ht Hr. unfold child_parent_prob.
  rewrite (getitem_Some _ _ _ Hc), bind_Ok, Ht.
  by rewrite (getitem_Some _ _ _ Hr).
Qed.

(** ** [joint_probability] *)

Lemma prod_list_cons (x : Qc) (l : list Qc) :
  prod_list (x :: l) = x * prod_list l.
Proof. reflexivity. Qed.

Section joint.
Context (people : gmap string person) (one two ht : gset string).
Hypothesis wf : wf_pedigree people.

Let request := build_request (keys people) one two ht.

Lemma request_lookup (name : string) :
  name ∈ dom people →
  request !! name = Some (Req (gene_no one two name) (trait_prop ht name)).
Proof.
  intros H. apply build_request_lookup, elem_of_keys. by apply elem_of_dom.
Qed.

Lemma request_assigns (name : string) :
  name ∈ dom people → assigns request name (gene_no one two name).
Proof. intros H. unfold assigns. by rewrite request_lookup. Qed.

(** The gene factor the code computes for a person of the table. *)
Lemma child_parent_prob_spec (name : string) (pc : person) :
  people !! name = Some pc →
  child_parent_prob name people request
  = Ok (spec_gene_factor (gene_no one two) name pc).
Proof.
  intros Hpc.
  assert (name ∈ dom people) as Hdom by (apply elem_of_dom; eauto).
  destruct (wf_person_cases people pc (wf _ _ Hpc))
    as [[Hf Ht] | (mum & dad & Hm & Hd & Ht & _ & Hmum & Hdad)].
  - rewrite (child_parent_prob_founder _ _ _ _ _ Hpc Ht
               (request_lookup _ Hdom)). simpl.
    unfold spec_gene_factor. unfold is_founder in Hf.
    destruct (p_mother pc), (p_father pc); try done.
    by destruct (PROBS_gene_pos _ (gene_no_count one two name))
      as (p & -> & _).
  - rewrite Hm in Ht. apply truthy_Some in Ht.
    rewrite (child_parent_prob_nonfounder _ _ _ _ _ _ _ _ _
               Hpc Hm Ht Hd (request_assigns _ Hdom)
               (request_assigns _ Hmum) (request_assigns _ Hdad)).
    unfold spec_gene_factor, spec_mutant. rewrite Hm, Hd.
    destruct (PARENT_PROB_parent_rows _ (gene_no_count one two mum))
      as (n1 & m1 & -> & -> & -> & _).
    destruct (PARENT_PROB_parent_rows _ (gene_no_count one two dad))
      as (n2 & m2 & -> & -> & -> & _).
    by destruct (gene_no_count one two name) as [-> | [-> | ->]].
Qed.

Lemma joint_probability_loop (l : list (string * person)) (total : Qc) :
  (∀ name pc, (name, pc) ∈ l → people !! name = Some pc) →
  for_each (λ total_prob name,
    let current_prob := 1 in
    cp ← child_parent_prob name people request;
    let current_prob := current_prob * cp in
    r ← getitem request (Some name);
    t ← PROBS_trait (r_gene r) (r_trait r);
    let current_prob := current_prob * t in
    Ok (total_prob * current_prob)) l.*1 total
  = Ok (total * prod_list
          ((λ '(name, pc),
              spec_factor (gene_no one two) (trait_prop ht) name pc) <$> l)).
Proof.
  revert total. induction l as [|[name pc] l IH]; intros total Hl.
  - simpl. f_equal. ring.
  - assert (people !! name = Some pc) as Hpc by (apply Hl; left).
    assert (name ∈ dom people) as Hdom by (apply elem_of_dom; eauto).
    cbn [fmap list_fmap for_each fst].
    rewrite (child_parent_prob_spec _ _ Hpc), bind_Ok.
    rewrite (getitem_Some _ _ _ (request_lookup _ Hdom)), bind_Ok.
    cbn [r_gene r_trait].
    destruct (PROBS_trait_pos _ (trait_prop ht name)
                (gene_no_count one two name)) as (t & Et & _).
    rewrite Et, !bind_Ok.
    rewrite IH by (intros ???; apply Hl; by right).
    f_equal. rewrite prod_list_cons. unfold spec_factor at 2. rewrite Et.
    cbn [entry]. ring.
Qed.

Lemma joint_probability_spec :
  joint_probability people one two ht
  = Ok (spec_joint people (gene_no one two) (trait_prop ht)).
Proof.
  unfold spec_joint.
  etrans; [apply (joint_probability_loop (map_to_list people) 1)|].
  - intros name pc H. by apply elem_of_map_to_list.
  - f_equal. ring.
Qed.
End joint.

Lemma spec_inherit_pos (gm gf k : Z) :
  gene_count gm → gene_count gf → gene_count k →
  0 < spec_inherit (spec_mutant gm) (spec_mutant gf) k.
Proof.
  intros [-> | [-> | ->]] [-> | [-> | ->]] [-> | [-> | ->]]; by vm_compute.
Qed.

Lemma spec_gene_factor_pos (gene : string → Z) (name : string) (pc : person) :
  (∀ n, gene_count (gene n)) → 0 < spec_gene_factor gene name pc.
Proof.
  intros Hg. unfold spec_gene_factor.
  destruct (p_mother pc) as [mum|], (p_father pc) as [dad|];
    try (by destruct (PROBS_gene_pos _ (Hg name)) as (p & -> & ?)).
  by apply spec_inherit_pos.
Qed.

Lemma spec_factor_pos (gene : string → Z) (trait : string → bool)
  (name : string) (pc : person) :
  (∀ n, gene_count (gene n)) → 0 < spec_factor gene trait name pc.
Proof.
  intros Hg. unfold spec_factor. apply Qcmult_pos_pos.
  - by destruct (PROBS_trait_pos _ (trait name) (Hg name)) as (p & -> & ?).
  - by apply spec_gene_factor_pos.
Qed.

Lemma prod_list_pos (l : list Qc) : Forall (λ x, 0 < x) l → 0 < prod_list l.
Proof.
  induction 1 as [|x l Hx _ IH]; [done|].
  rewrite prod_list_cons. by apply Qcmult_pos_pos.
Qed.

Lemma spec_joint_pos (people : gmap string person) (gene : string → Z)
  (trait : string → bool) :
  (∀ n, gene_count (gene n)) → 0 < spec_joint people gene trait.
Proof.
  intros Hg. apply prod_list_pos, Forall_fmap, list.Forall_forall.
  intros [name pc] _. by apply spec_factor_pos.
Qed.

Lemma joint_probability_pos (people : gmap string person)
  (one two ht : gset string) :
  wf_pedigree people →
  ∃ p, joint_probability people one two ht = Ok p ∧ 0 < p.
Proof.
  intros wf. rewrite joint_probability_spec by done.
  eexists; split; [done|]. apply spec_joint_pos, gene_no_count.
Qed.

(** The factorization reads a hypothesis only at the names of the table. *)
Lemma spec_joint_ext (people : gmap string person) (gene gene' : string → Z)
  (trait trait' : string → bool) :
  wf_pedigree people →
  (∀ n, n ∈ dom people → gene n = gene' n ∧ trait n = trait' n) →
  spec_joint people gene trait = spec_joint people gene' trait'.
Proof.
  intros wf Hext. unfold spec_joint. f_equal.
  apply Forall_fmap_ext, list.Forall_forall. intros [name pc] Hin.
  apply elem_of_map_to_list in Hin.
  assert (name ∈ dom people) as Hdom by (apply elem_of_dom; eauto).
  destruct (Hext _ Hdom) as [Eg Et].
  unfold spec_factor, spec_gene_factor. rewrite Eg, Et. f_equal.
  destruct (wf_person_cases people pc (wf _ _ Hin))
    as [[Hf _] | (mum & dad & -> & -> & _ & _ & Hmum & Hdad)].
  - unfold is_founder in Hf. by destruct (p_mother pc), (p_father pc).
  - by rewrite (proj1 (Hext _ Hmum)), (proj1 (Hext _ Hdad)).
Qed.

Lemma gene_no_of (people : gmap string person) (gene : string → Z)
  (name : string) :
  gene_count (gene name) → name ∈ dom people →
  gene_no (one_gene_of people gene) (two_genes_of people gene) name
  = gene name.
Proof.
  intros Hg Hdom. unfold gene_no, one_gene_of, two_genes_of.
  assert (∀ k, name ∈ filter (λ n, gene n = k) (dom people) ↔ gene name = k)
    as Hk by (intros k; rewrite elem_of_filter; tauto).
  rewrite !(bool_decide_ext _ _ (Hk _)).
  by destruct Hg as [E | [E | E]]; rewrite E.
Qed.

Lemma trait_prop_of (people : gmap string person) (trait : string → bool)
  (name : string) :
  name ∈ dom people →
  trait_prop (have_trait_of people trait) name = trait name.
Proof.
  intros Hdom. unfold trait_prop, have_trait_of.
  assert (name ∈ filter (λ n, trait n = true) (dom people)
          ↔ trait name = true) as Hk by (rewrite elem_of_filter; tauto).
  rewrite (bool_decide_ext _ _ Hk). by destruct (trait name).
Qed.

Lemma wf_family : wf_pedigree family.
Proof. apply (bool_decide_unpack _). vm_compute. exact I. Qed.

Lemma sample_gene_count (name : string) : gene_count (sample_gene name).
Proof.
  unfold gene_count, sample_gene.
  destruct (String.eqb name "Harry"); [auto|].
  destruct (String.eqb name "James"); auto.
Qed.

(** ** The claims about the joint probability *)







(** Under a well-formed pedigree, a request that gives everybody a gene
    count in {0,1,2} never reaches an error in [child_parent_prob]. *)
Lemma child_parent_prob_total (people : gmap string person)
  (request : gmap string req) (child : string) (pc : person) :
  wf_pedigree people →
  (∀ name, name ∈ dom people →
     ∃ g, assigns request name g ∧ gene_count g) →
  people !! child = Some pc →
  ∃ p, child_parent_prob child people request = Ok p ∧ 0 < p.
Proof.
  intros wf Hreq Hpc.
  assert (child ∈ dom people) as Hdom by (apply elem_of_dom; eauto).
  destruct (Hreq _ Hdom) as (k & Hk & Hkc).
  destruct (wf_person_cases people pc (wf _ _ Hpc))
    as [[_ Ht] | (mum & dad & Hm & Hd & Ht & _ & Hmum & Hdad)].
  - unfold assigns in Hk.
    destruct (request !! child) as [rc|] eqn:Hrc; simplify_eq/=.
    rewrite (child_parent_prob_founder _ _ _ _ _ Hpc Ht Hrc).
    by apply PROBS_gene_pos.
  - destruct (Hreq _ Hmum) as (gm & Hgm & Hgmc).
    destruct (Hreq _ Hdad) as (gf & Hgf & Hgfc).
    rewrite Hm in Ht. apply truthy_Some in Ht.
    rewrite (child_parent_prob_nonfounder _ _ _ _ _ _ _ _ _
               Hpc Hm Ht Hd Hk Hgm Hgf).
    pose proof (spec_inherit_pos _ _ _ Hgmc Hgfc Hkc) as Hpos.
    unfold spec_mutant in Hpos.
    destruct (PARENT_PROB_parent_rows _ Hgmc) as (n1 & m1 & E1 & E2 & -> & _).
    destruct (PARENT_PROB_parent_rows _ Hgfc) as (n2 & m2 & E3 & E4 & -> & _).
    rewrite E1, E2, E3, E4. rewrite E2, E4 in Hpos. cbn [entry] in Hpos.
    destruct Hkc as [-> | [-> | ->]]; eexists; (split; [reflexivity|]);
      exact Hpos.
Qed.



(** ** [powerset] *)

Local Open Scope nat_scope.

Section combinations.
Context {A : Type}.
Implicit Types (l : list A) (r : nat).

Lemma combinations_0 l : combinations l 0 = [[]].
Proof. by destruct l. Qed.

Lemma combinations_too_long l r : length l < r → combinations l r = [].
Proof.
  revert r. induction l as [|x l IH]; intros [|r] Hr; simpl in *; try lia.
  - done.
  - rewrite !IH by lia. done.
Qed.

Lemma bind_split {B C : Type} (g h : B → list C) (L : list B) :
  L ≫= (λ b, g b ++ h b) ≡ₚ (L ≫= g) ++ (L ≫= h).
Proof.
  induction L as [|b L IH]; [done|].
  rewrite !bind_cons, IH. solve_Permutation.
Qed.

Lemma bind_fmap_inner {B C D : Type} (f : C → D) (g : B → list C)
  (L : list B) :
  L ≫= (λ b, f <$> g b) = f <$> (L ≫= g).
Proof.
  induction L as [|b L IH]; [done|].
  by rewrite !bind_cons, fmap_app, IH.
Qed.

Lemma bind_seq_S {C : Type} (g : nat → list C) (n : nat) :
  seq 1 n ≫= g = seq 0 n ≫= (λ r, g (S r)).
Proof. by rewrite <- fmap_S_seq, list_fmap_bind. Qed.

(** Grouped by length or not, the subsequences are the same. *)
Lemma combinations_sublists l :
  seq 0 (length l + 1) ≫= combinations l ≡ₚ sublists l.
Proof.
  induction l as [|x l IH]; [done|].
  replace (length (x :: l) + 1) with (S (length l + 1)) by (simpl; lia).
  cbn [seq]. rewrite bind_cons, combinations_0, bind_seq_S.
  cbn [combinations sublists].
  rewrite bind_split, bind_fmap_inner, IH.
  rewrite <- bind_seq_S.
  assert ([] :: (seq 1 (length l + 1) ≫= combinations l)
          ≡ₚ sublists l) as Hrest.
  { rewrite <- IH.
    replace (length l + 1) with (S (length l)) by lia.
    rewrite (seq_S (length l) 1), bind_app, bind_singleton.
    rewrite (combinations_too_long l (1 + length l)) by lia.
    cbn [seq]. by rewrite bind_cons, combinations_0, !app_nil_r. }
  etrans; [apply (Permutation_middle (cons x <$> sublists l))|].
  by apply Permutation_app_head.
Qed.

Lemma length_sublists l : length (sublists l) = 2 ^ length l.
Proof.
  induction l as [|x l IH]; [done|].
  cbn [sublists]. rewrite length_app, length_fmap, IH.
  cbn [length]. rewrite Nat.pow_succ_r'. lia.
Qed.
End combinations.

(** The subsets of a duplicate-free list of names, as sets. *)
Lemma sublists_sets (l : list string) :
  NoDup l →
  NoDup (list_to_set <$> sublists l : list (gset string))
  ∧ ∀ t : gset string,
      t ∈ (list_to_set <$> sublists l : list (gset string))
      ↔ t ⊆ list_to_set l.
Proof.
  induction 1 as [|x l Hx Hl [IHnd IHin]].
  - split; [apply NoDup_singleton|].
    intros t. cbn. rewrite list_elem_of_singleton. set_solver.
  - cbn [sublists]. rewrite fmap_app, <- list_fmap_compose.
    assert (list_to_set ∘ cons x <$> sublists l
            = (λ t : gset string, {[x]} ∪ t)
                <$> (list_to_set <$> sublists l)) as ->.
    { by rewrite <- list_fmap_compose. }
    assert (x ∉ (list_to_set l : gset string)) as Hx'
        by by rewrite elem_of_list_to_set.
    split.
    + apply NoDup_app. split; [|split; [|done]].
      * apply NoDup_fmap_2_strong; [|done].
        intros a b Ha%IHin Hb%IHin. set_solver.
      * intros t (t' & -> & Ht'%IHin)%list_elem_of_fmap Ht%IHin.
        set_solver.
    + intros t. rewrite elem_of_app, list_elem_of_fmap, IHin.
      cbn [list_to_set]. split.
      * intros [(t' & -> & Ht'%IHin) | Ht]; set_solver.
      * intros Ht. destruct (decide (x ∈ t)) as [Hxt|Hxt].
        -- left. exists (t ∖ {[x]}). rewrite IHin. split; [|set_solver].
           apply set_eq. intros y. rewrite elem_of_union, elem_of_difference,
             elem_of_singleton. destruct (decide (y = x)); naive_solver.
        -- right. set_solver.
Qed.

Lemma powerset_sublists (s : gset string) :
  powerset s ≡ₚ list_to_set <$> sublists (elements s).
Proof. unfold powerset. by rewrite combinations_sublists. Qed.

Lemma NoDup_powerset (s : gset string) : NoDup (powerset s).
Proof.
  rewrite powerset_sublists. apply sublists_sets, NoDup_elements.
Qed.

Lemma elem_of_powerset (s t : gset string) : t ∈ powerset s ↔ t ⊆ s.
Proof.
  rewrite powerset_sublists.
  rewrite (proj2 (sublists_sets _ (NoDup_elements s))).
  by rewrite list_to_set_elements_L.
Qed.

Lemma length_powerset (s : gset string) : length (powerset s) = 2 ^ size s.
Proof.
  rewrite powerset_sublists, length_fmap, length_sublists. done.
Qed.

Lemma filter_eq_absent {B : Type} `{EqDecision B} (l : list B) (x : B) :
  x ∉ l → filter (λ y, y = x) l = [].
Proof.
  induction l as [|y l IH]; intros Hx; [done|].
  apply not_elem_of_cons in Hx as [Hne Hx].
  rewrite filter_cons_False by done. by apply IH.
Qed.

Lemma filter_eq_NoDup {B : Type} `{EqDecision B} (l : list B) (x : B) :
  NoDup l → x ∈ l → length (filter (λ y, y = x) l) = 1.
Proof.
  induction 1 as [|y l Hy Hl IH]; intros Hx.
  - by apply elem_of_nil in Hx.
  - destruct (decide (y = x)) as [->|Hne].
    + rewrite filter_cons_True by done. by rewrite filter_eq_absent.
    + rewrite filter_cons_False by done.
      apply IH. apply elem_of_cons in Hx as [->|]; done.
Qed.

(** C10: [powerset s] has 2^n entries for a set of n names, and they are
    the subsets of [s], each one once; the empty set and [s] itself are
    among them. *)
Theorem powerset_complete (s : gset string) :
  length (powerset s) = 2 ^ size s
  ∧ NoDup (powerset s)
  ∧ (∀ t, t ∈ powerset s ↔ t ⊆ s)
  ∧ (∀ t, t ⊆ s → length (filter (λ u, u = t) (powerset s)) = 1)
  ∧ ∅ ∈ powerset s
  ∧ s ∈ powerset s.
Proof.
  split_and!.
  - apply length_powerset.
  - apply NoDup_powerset.
  - apply elem_of_powerset.
  - intros t Ht. apply filter_eq_NoDup; [apply NoDup_powerset|].
    by apply elem_of_powerset.
  - by apply elem_of_powerset.
  - by apply elem_of_powerset.
Qed.

(** ** The enumeration of hypotheses *)

Lemma length_bind_sum {B C : Type} (f : B → list C) (l : list B) :
  length (l ≫= f) = sum_list_with (λ b, length (f b)) l.
Proof.
  induction l as [|b l IH]; [done|].
  rewrite bind_cons, length_app, IH. done.
Qed.

Lemma sum_list_with_ext_in {B : Type} (f g : B → nat) (l : list B) :
  (∀ b, b ∈ l → f b = g b) → sum_list_with f l = sum_list_with g l.
Proof.
  induction l as [|b l IH]; intros H; [done|].
  simpl. rewrite (H b) by left. rewrite IH; [done|].
  intros ??. apply H. by right.
Qed.

Lemma sum_list_with_fmap {B C : Type} (h : B → C) (f : C → nat)
  (l : list B) :
  sum_list_with f (h <$> l) = sum_list_with (f ∘ h) l.
Proof. induction l as [|b l IH]; [done|]. simpl. f_equal. exact IH. Qed.

Lemma sum_list_with_scale {B : Type} (f : B → nat) (k : nat) (l : list B) :
  sum_list_with (λ b, k * f b) l = k * sum_list_with f l.
Proof. induction l as [|b l IH]; simpl; [lia|]. rewrite IH. lia. Qed.

Lemma sublists_subseteq (l : list string) (t : list string) :
  t ∈ sublists l → (list_to_set t : gset string) ⊆ list_to_set l.
Proof.
  revert t. induction l as [|x l IH]; intros t; cbn [sublists].
  - intros ->%list_elem_of_singleton. done.
  - rewrite elem_of_app, list_elem_of_fmap.
    intros [(t' & -> & Ht'%IH) | Ht%IH]; set_solver.
Qed.

(** The second loop: for every choice of the one-copy group, the subsets of
    the remaining names. *)
Lemma sum_pow_sublists (l : list string) :
  NoDup l →
  sum_list_with
    (λ t, 2 ^ size ((list_to_set l : gset string) ∖ list_to_set t))
    (sublists l)
  = 3 ^ length l.
Proof.
  induction 1 as [|x l Hx Hl IH]; [done|].
  assert (x ∉ (list_to_set l : gset string)) as Hx'
      by by rewrite elem_of_list_to_set.
  cbn [sublists]. rewrite sum_list_with_app, sum_list_with_fmap.
  rewrite (sum_list_with_ext_in _
    (λ t, 2 ^ size ((list_to_set l : gset string) ∖ list_to_set t))).
  2:{ intros t Ht%sublists_subseteq. cbn [compose list_to_set].
      do 2 f_equal. set_solver. }
  rewrite (sum_list_with_ext_in
    (λ t, 2 ^ size ((list_to_set (x :: l) : gset string) ∖ list_to_set t))
    (λ t, 2 * 2 ^ size ((list_to_set l : gset string) ∖ list_to_set t))).
  2:{ intros t Ht%sublists_subseteq. cbn [list_to_set].
      rewrite <- Nat.pow_succ_r'. f_equal.
      assert (({[x]} ∪ list_to_set l) ∖ list_to_set t
              = {[x]} ∪ ((list_to_set l : gset string) ∖ list_to_set t))
        as -> by set_solver.
      rewrite size_union by set_solver. by rewrite size_singleton. }
  rewrite sum_list_with_scale, IH. cbn [length].
  rewrite Nat.pow_succ_r'. lia.
Qed.

Lemma length_gene_pairs (names : gset string) :
  length (gene_pairs names) = 3 ^ size names.
Proof.
  unfold gene_pairs. rewrite length_bind_sum.
  rewrite (sum_list_with_ext_in _ (λ one, 2 ^ size (names ∖ one))).
  2:{ intros one _. by rewrite length_fmap, length_powerset. }
  rewrite powerset_sublists, sum_list_with_fmap.
  rewrite (sum_list_with_ext_in _
    (λ t, 2 ^ size ((list_to_set (elements names) : gset string)
                    ∖ list_to_set t))).
  2:{ intros t _. cbn [compose]. by rewrite list_to_set_elements_L. }
  apply (sum_pow_sublists (elements names)), NoDup_elements.
Qed.

Lemma elem_of_gene_pairs (names one two : gset string) :
  (one, two) ∈ gene_pairs names ↔ one ⊆ names ∧ two ⊆ names ∖ one.
Proof.
  unfold gene_pairs. rewrite list_elem_of_bind. split.
  - intros (one' & (two' & [= -> ->] & Htwo)%list_elem_of_fmap & Hone).
    by rewrite <- !elem_of_powerset.
  - intros [Hone Htwo]. exists one. split; [|by apply elem_of_powerset].
    apply list_elem_of_fmap. exists two. split; [done|].
    by apply elem_of_powerset.
Qed.

Lemma NoDup_gene_pairs (names : gset string) : NoDup (gene_pairs names).
Proof.
  unfold gene_pairs. apply NoDup_bind.
  - intros one one' [a b] _ _.
    intros (? & [= -> ->] & _)%list_elem_of_fmap.
    by intros (? & [= -> ->] & _)%list_elem_of_fmap.
  - intros one _. apply NoDup_fmap_2; [|apply NoDup_powerset].
    by intros ?? [= ->].
  - apply NoDup_powerset.
Qed.

Lemma length_hypotheses (names : gset string) :
  length (hypotheses names) = 3 ^ size names * 2 ^ size names.
Proof.
  unfold hypotheses. rewrite length_bind_sum.
  rewrite (sum_list_with_ext_in _ (λ _, 3 ^ size names * 1)).
  2:{ intros ht _. rewrite length_fmap, length_gene_pairs. lia. }
  rewrite sum_list_with_scale.
  assert (∀ l : list (gset string), sum_list_with (λ _, 1) l = length l)
    as -> by (induction l; simpl; auto).
  by rewrite length_powerset.
Qed.

Lemma elem_of_hypotheses (names one two ht : gset string) :
  (one, two, ht) ∈ hypotheses names
  ↔ ht ⊆ names ∧ one ⊆ names ∧ two ⊆ names ∖ one.
Proof.
  unfold hypotheses. rewrite list_elem_of_bind. split.
  - intros (ht' & ([a b] & [= -> -> ->] & Hp)%list_elem_of_fmap & Hht).
    by rewrite <- elem_of_powerset, <- elem_of_gene_pairs.
  - intros (Hht & Hone & Htwo). exists ht.
    split; [|by apply elem_of_powerset].
    apply list_elem_of_fmap. exists (one, two). split; [done|].
    by apply elem_of_gene_pairs.
Qed.

Lemma NoDup_hypotheses (names : gset string) : NoDup (hypotheses names).
Proof.
  unfold hypotheses. apply NoDup_bind.
  - intros ht ht' [[a b] c] _ _.
    intros ([??] & [= -> -> ->] & _)%list_elem_of_fmap.
    by intros ([??] & [= -> -> ->] & _)%list_elem_of_fmap.
  - intros ht _. apply NoDup_fmap_2; [|apply NoDup_gene_pairs].
    by intros [??] [??] [= -> ->].
  - apply NoDup_powerset.
Qed.

(** ** The loops of the driver, flattened *)

Lemma for_each_bind {B C S : Type} (body : S → C → result S)
  (f : B → list C) (l : list B) (s : S) :
  for_each body (l ≫= f) s = for_each (λ s x, for_each body (f x) s) l s.
Proof.
  revert s. induction l as [|x l IH]; intros s; [done|].
  rewrite bind_cons, for_each_app. cbn [for_each].
  destruct (for_each body (f x) s) as [s'|e]; simpl; [apply IH | done].
Qed.

Lemma for_each_fmap {B C S : Type} (body : S → C → result S) (g : B → C)
  (l : list B) (s : S) :
  for_each body (g <$> l) s = for_each (λ s x, body s (g x)) l s.
Proof.
  revert s. induction l as [|x l IH]; intros s; [done|].
  cbn [fmap list_fmap for_each].
  destruct (body s (g x)) as [s'|e]; simpl; [apply IH | done].
Qed.

Lemma for_each_ext {B S : Type} (body body' : S → B → result S)
  (l : list B) (s : S) :
  (∀ s x, x ∈ l → body s x = body' s x) →
  for_each body l s = for_each body' l s.
Proof.
  revert s. induction l as [|x l IH]; intros s H; [done|].
  cbn [for_each]. rewrite (H s x) by left.
  destruct (body' s x) as [s'|e]; simpl; [|done].
  apply IH. intros ???. apply H. by right.
Qed.

Lemma for_each_skip {B S : Type} (l : list B) (s : S) :
  for_each (λ s _, Ok s) l s = Ok s.
Proof. induction l as [|x l IH]; [done|]. exact IH. Qed.

Lemma for_each_filter {B S : Type} (body : S → B → result S) (c : B → bool)
  (l : list B) (s : S) :
  for_each (λ s x, if c x then Ok s else body s x) l s
  = for_each body (filter (λ x, c x = false) l) s.
Proof.
  revert s. induction l as [|x l IH]; intros s; [done|].
  cbn [for_each]. destruct (c x) eqn:E.
  - rewrite filter_cons_False by (by rewrite E). simpl. apply IH.
  - rewrite filter_cons_True by done. cbn [for_each].
    destruct (body s x) as [s'|e]; simpl; [apply IH | done].
Qed.

Lemma fails_evidence_violates (people : gmap string person)
  (have_trait : gset string) :
  fails_evidence people (dom people) have_trait
  = Ok (violates people have_trait).
Proof.
  unfold fails_evidence, violates.
  assert (∀ x, x ∈ elements (dom people) → is_Some (people !! x)) as Hl.
  { intros x Hx. by apply elem_of_dom, elem_of_elements. }
  induction (elements (dom people)) as [|x l IH]; [done|].
  cbn [any_of existsb]. destruct (Hl x) as [pc Hpc]; [by left|].
  rewrite (getitem_Some _ _ _ Hpc), Hpc. simpl.
  destruct (contradicts _ _); [done|]. simpl.
  apply IH. intros ??. apply Hl. by right.
Qed.

(** The three loops of [main_loop] go through [hypotheses], in its order;
    a hypothesis whose trait set contradicts an observation is passed
    over. *)
Lemma main_loop_hypotheses (people : gmap string person) :
  main_loop people
  = for_each (λ probabilities h,
      if violates people h.2 then Ok probabilities
      else step people probabilities h)
      (hypotheses (dom people)) ((λ _, zero_dist) <$> people).
Proof.
  unfold main_loop, hypotheses. rewrite for_each_bind.
  apply for_each_ext. intros probs ht _.
  rewrite fails_evidence_violates, bind_Ok, for_each_fmap.
  destruct (violates people ht) eqn:Hv.
  - rewrite <- (for_each_skip (gene_pairs (dom people)) probs) at 1.
    apply for_each_ext. intros ? [one two] _. cbn. by rewrite Hv.
  - unfold gene_pairs. rewrite for_each_bind.
    apply for_each_ext. intros probs' one _.
    rewrite for_each_fmap.
    apply for_each_ext. intros probs'' two _. cbn. by rewrite Hv.
Qed.

Lemma main_loop_evaluated (people : gmap string person) :
  main_loop people
  = for_each (step people) (evaluated people) ((λ _, zero_dist) <$> people).
Proof.
  rewrite main_loop_hypotheses. unfold evaluated.
  by rewrite <- for_each_filter.
Qed.

Lemma gene_no_1 (one two : gset string) (name : string) :
  gene_no one two name = 1%Z ↔ name ∈ one.
Proof. unfold gene_no. repeat case_bool_decide. all: naive_solver. Qed.

Lemma gene_no_2 (one two : gset string) (name : string) :
  gene_no one two name = 2%Z ↔ (name ∉ one) ∧ name ∈ two.
Proof. unfold gene_no. repeat case_bool_decide. all: naive_solver. Qed.

Lemma trait_prop_true (ht : gset string) (name : string) :
  trait_prop ht name = true ↔ name ∈ ht.
Proof. unfold trait_prop. case_bool_decide. all: naive_solver. Qed.

(** C2: the loops of the driver go through [hypotheses]; for n people the
    list has 3^n * 2^n entries without repetition; in each entry the
    one-copy and two-copy groups are disjoint sets of people, so everybody is
    in exactly one of the three groups; every assignment of gene counts in
    {0,1,2} and of trait statuses is represented by exactly one entry, and
    every entry is the representation of the assignment it induces. *)
Theorem enumeration_exhaustive (people : gmap string person) :
  main_loop people
  = for_each (λ probabilities h,
      if violates people h.2 then Ok probabilities
      else step people probabilities h)
      (hypotheses (dom people)) ((λ _, zero_dist) <$> people)
  ∧ length (hypotheses (dom people))
    = 3 ^ size (dom people) * 2 ^ size (dom people)
  ∧ NoDup (hypotheses (dom people))
  ∧ (∀ one two ht, (one, two, ht) ∈ hypotheses (dom people) →
       one ⊆ dom people ∧ two ⊆ dom people ∧ ht ⊆ dom people ∧ one ## two
       ∧ one = one_gene_of people (gene_no one two)
       ∧ two = two_genes_of people (gene_no one two)
       ∧ ht = have_trait_of people (trait_prop ht))
  ∧ (∀ gene trait, (∀ name, gene_count (gene name)) →
       length (filter
         (λ h, h = (one_gene_of people gene, two_genes_of people gene,
                    have_trait_of people trait))
         (hypotheses (dom people))) = 1).
Proof.
  split_and!.
  - apply main_loop_hypotheses.
  - apply length_hypotheses.
  - apply NoDup_hypotheses.
  - intros one two ht (Hht & Hone & Htwo)%elem_of_hypotheses.
    split_and!; [done | set_solver | done | set_solver | | |].
    + apply set_eq. intros n. unfold one_gene_of.
      rewrite elem_of_filter, gene_no_1. set_solver.
    + apply set_eq. intros n. unfold two_genes_of.
      rewrite elem_of_filter, gene_no_2. set_solver.
    + apply set_eq. intros n. unfold have_trait_of.
      rewrite elem_of_filter, trait_prop_true. set_solver.
  - intros gene trait Hg.
    apply filter_eq_NoDup; [apply NoDup_hypotheses|].
    apply elem_of_hypotheses.
    unfold one_gene_of, two_genes_of, have_trait_of. split_and!.
    + intros n [_ ?]%elem_of_filter. done.
    + intros n [_ ?]%elem_of_filter. done.
    + intros n [E2 ?]%elem_of_filter. apply elem_of_difference.
      split; [done|]. intros [E1 _]%elem_of_filter. congruence.
Qed.

(** ** [update] *)

Local Open Scope Qc_scope.

Lemma add_gene_bump (one two ht : gset string) (p : Qc) (name : string)
  (d : dist) :
  ∃ d', add_gene d (gene_no one two name) p = Ok d'
        ∧ add_trait d' (trait_prop ht name) p = bump one two ht p name d.
Proof.
  unfold bump.
  destruct (gene_no_count one two name) as [-> | [-> | ->]]; by eexists.
Qed.

Lemma update_loop (request : gmap string req) (one two ht : gset string)
  (p : Qc) (l : list string) (probabilities : gmap string dist) :
  NoDup l →
  (∀ name, name ∈ l →
     request !! name
     = Some (Req (gene_no one two name) (trait_prop ht name))) →
  (∀ name, name ∈ l → is_Some (probabilities !! name)) →
  ∃ probabilities',
    for_each (λ probabilities name,
      d ← getitem probabilities (Some name);
      r ← getitem request (Some name);
      d ← add_gene d (r_gene r) p;
      let d := add_trait d (r_trait r) p in
      Ok (<[name := d]> probabilities)) l probabilities
    = Ok probabilities'
    ∧ ∀ name, probabilities' !! name
              = if decide (name ∈ l)
                then bump one two ht p name <$> probabilities !! name
                else probabilities !! name.
Proof.
  intros Hnd. revert probabilities.
  induction Hnd as [|x l Hx Hnd IH]; intros probs Hreq Hdom.
  - exists probs. split; [done|]. intros name.
    rewrite decide_False; [done | apply not_elem_of_nil].
  - destruct (Hdom x) as [d Hd]; [by left|].
    destruct (add_gene_bump one two ht p x d) as (d' & Eg & Eb).
    destruct (IH (<[x := bump one two ht p x d]> probs))
      as (probs' & E & Hlook).
    + intros ??. apply Hreq. by right.
    + intros n Hn. rewrite lookup_insert_ne by (by intros ->).
      apply Hdom. by right.
    + exists probs'. split.
      * cbn [for_each].
        rewrite (getitem_Some _ _ _ Hd), bind_Ok.
        rewrite (getitem_Some _ _ _ (Hreq x ltac:(by left))), bind_Ok.
        cbn [r_gene r_trait].
        rewrite Eg, bind_Ok. cbn zeta. rewrite Eb. exact E.
      * intros name. rewrite Hlook.
        destruct (decide (name = x)) as [->|Hne].
        -- rewrite decide_False by done. rewrite decide_True by left.
           by rewrite lookup_insert_eq, Hd.
        -- rewrite lookup_insert_ne by done.
           destruct (decide (name ∈ l)).
           ++ rewrite decide_True by (by right). done.
           ++ rewrite decide_False; [done|]. by intros [?|?]%elem_of_cons.
Qed.

(** [update] adds [p] to one gene bucket and one trait bucket of every
    entry, and never raises. *)
Lemma update_spec (probabilities : gmap string dist)
  (one two ht : gset string) (p : Qc) :
  update probabilities one two ht p
  = Ok (map_imap (λ name d, Some (bump one two ht p name d)) probabilities).
Proof.
  destruct (update_loop
    (build_request (keys probabilities) one two ht) one two ht p
    (keys probabilities) probabilities) as (probs' & E & Hlook).
  - apply NoDup_keys.
  - intros name Hn. by apply build_request_lookup.
  - intros name Hn. by apply elem_of_keys.
  - transitivity (Ok probs'); [exact E|].
    f_equal. apply map_eq. intros name.
    rewrite Hlook, map_lookup_imap.
    destruct (probabilities !! name) as [d|] eqn:Hd.
    + rewrite decide_True; [done|]. apply elem_of_keys. eauto.
    + by case_decide.
Qed.

(** ** [normalize] *)

Lemma normalize_person_spec (d : dist) :
  normalize_person d
  = if decide (zero_total d) then Raise ZeroDivisionError
    else Ok (norm_dist d).
Proof.
  unfold normalize_person, div.
  destruct (decide (zero_total d)) as [[Hz|Hz]|Hnz].
  - by destruct (decide (gene_sum d = 0)).
  - destruct (decide (gene_sum d = 0)); [done|].
    by destruct (decide (trait_sum d = 0)).
  - destruct (decide (gene_sum d = 0)); [by destruct Hnz; left|].
    by destruct (decide (trait_sum d = 0)); [destruct Hnz; right|].
Qed.

Lemma normalize_loop_ok (l : list string) (probabilities : gmap string dist) :
  NoDup l →
  (∀ name, name ∈ l →
     ∃ d, probabilities !! name = Some d ∧ ¬ zero_total d) →
  ∃ probabilities',
    for_each (λ probabilities person,
      d ← getitem probabilities (Some person);
      d ← normalize_person d;
      Ok (<[person := d]> probabilities)) l probabilities
    = Ok probabilities'
    ∧ ∀ name, probabilities' !! name
              = if decide (name ∈ l)
                then norm_dist <$> probabilities !! name
                else probabilities !! name.
Proof.
  intros Hnd. revert probabilities.
  induction Hnd as [|x l Hx Hnd IH]; intros probs Hok.
  - exists probs. split; [done|]. intros name.
    rewrite decide_False; [done | apply not_elem_of_nil].
  - destruct (Hok x) as (d & Hd & Hnz); [by left|].
    destruct (IH (<[x := norm_dist d]> probs)) as (probs' & E & Hlook).
    + intros n Hn. rewrite lookup_insert_ne by (by intros ->).
      apply Hok. by right.
    + exists probs'. split.
      * cbn [for_each]. rewrite (getitem_Some _ _ _ Hd), bind_Ok.
        rewrite normalize_person_spec, decide_False by done.
        rewrite bind_Ok. exact E.
      * intros name. rewrite Hlook.
        destruct (decide (name = x)) as [->|Hne].
        -- rewrite decide_False by done. rewrite decide_True by left.
           by rewrite lookup_insert_eq, Hd.
        -- rewrite lookup_insert_ne by done.
           destruct (decide (name ∈ l)).
           ++ rewrite decide_True by (by right). done.
           ++ rewrite decide_False; [done|]. by intros [?|?]%elem_of_cons.
Qed.

Lemma normalize_loop_fail (l : list string)
  (probabilities : gmap string dist) :
  NoDup l →
  (∀ name, name ∈ l → is_Some (probabilities !! name)) →
  (∃ name d, name ∈ l ∧ probabilities !! name = Some d ∧ zero_total d) →
  for_each (λ probabilities person,
    d ← getitem probabilities (Some person);
    d ← normalize_person d;
    Ok (<[person := d]> probabilities)) l probabilities
  = Raise ZeroDivisionError.
Proof.
  intros Hnd. revert probabilities.
  induction Hnd as [|x l Hx Hnd IH]; intros probs Hdom (n & dn & Hn & Hdn & Hz).
  - by apply elem_of_nil in Hn.
  - destruct (Hdom x) as [d Hd]; [by left|].
    cbn [for_each]. rewrite (getitem_Some _ _ _ Hd), bind_Ok.
    rewrite normalize_person_spec.
    destruct (decide (zero_total d)) as [|Hnz]; [done|].
    rewrite !bind_Ok. apply IH.
    + intros m Hm. rewrite lookup_insert_ne by (by intros ->).
      apply Hdom. by right.
    + apply elem_of_cons in Hn as [->|Hn].
      * rewrite Hd in Hdn. by simplify_eq.
      * exists n, dn. rewrite lookup_insert_ne by (by intros ->). done.
Qed.

(** C8: [normalize] raises [ZeroDivisionError] exactly when a gene total or
    a trait total of some person is zero, and raises nothing else; when no
    total is zero, in particular when all are positive, it returns every
    entry divided by its totals. *)
Theorem normalize_zero_total (probabilities : gmap string dist) :
  normalize probabilities
  = (if decide (map_Exists (λ _ d, zero_total d) probabilities)
     then Raise ZeroDivisionError
     else Ok (norm_dist <$> probabilities))
  ∧ (map_Forall (λ _ d, 0 < gene_sum d ∧ 0 < trait_sum d) probabilities →
     normalize probabilities = Ok (norm_dist <$> probabilities)).
Proof.
  assert (¬ map_Exists (λ _ d, zero_total d) probabilities →
          normalize probabilities = Ok (norm_dist <$> probabilities)) as Hok.
  { intros Hnone.
    destruct (normalize_loop_ok (keys probabilities) probabilities)
      as (probs' & E & Hlook).
    - apply NoDup_keys.
    - intros name [d Hd]%elem_of_keys. exists d. split; [done|].
      intros Hz. apply Hnone. by exists name, d.
    - transitivity (Ok probs'); [exact E|]. f_equal. apply map_eq.
      intros name. rewrite Hlook, lookup_fmap.
      destruct (probabilities !! name) as [d|] eqn:Hd.
      + rewrite decide_True; [done|]. apply elem_of_keys. eauto.
      + by case_decide. }
  split.
  - destruct (decide (map_Exists _ _)) as [(name & d & Hd & Hz)|Hnone].
    + apply normalize_loop_fail.
      * apply NoDup_keys.
      * intros n Hn. by apply elem_of_keys.
      * exists name, d. split; [|done]. apply elem_of_keys. eauto.
    + by apply Hok.
  - intros Hpos. apply Hok. intros (name & d & Hd & [Hz|Hz]);
      destruct (Hpos _ _ Hd) as [Hg Ht].
    + apply Qclt_not_eq in Hg. congruence.
    + apply Qclt_not_eq in Ht. congruence.
Qed.

(** ** Evidence *)

Lemma violates_false (people : gmap string person) (ht : gset string) :
  violates people ht = false
  ↔ ∀ who pc, people !! who = Some pc →
      contradicts (p_trait pc) (bool_decide (who ∈ ht)) = false.
Proof.
  unfold violates. rewrite <- not_true_iff_false, existsb_exists. split.
  - intros Hno who pc Hpc. apply not_true_iff_false. intros Hc.
    apply Hno. exists who. rewrite Hpc. split; [|done].
    apply list_elem_of_In, elem_of_elements, elem_of_dom. eauto.
  - intros Hall (who & _ & Hc).
    destruct (people !! who) as [pc|] eqn:Hpc; [|done].
    by rewrite (Hall _ _ Hpc) in Hc.
Qed.

Lemma elem_of_evaluated (people : gmap string person)
  (one two ht : gset string) :
  (one, two, ht) ∈ evaluated people
  ↔ violates people ht = false ∧ (one, two, ht) ∈ hypotheses (dom people).
Proof. unfold evaluated. by rewrite list_elem_of_filter. Qed.

Lemma evaluated_agrees (people : gmap string person) (who : string)
  (pc : person) (b : bool) (one two ht : gset string) :
  people !! who = Some pc → p_trait pc = Some b →
  (one, two, ht) ∈ evaluated people → trait_prop ht who = b.
Proof.
  intros Hpc Hb [Hv _]%elem_of_evaluated.
  pose proof (proj1 (violates_false _ _) Hv _ _ Hpc) as Hc.
  rewrite Hb in Hc. unfold trait_prop. simpl in Hc.
  by destruct b, (bool_decide (who ∈ ht)).
Qed.

Lemma trait_bucket_bump (one two ht : gset string) (p : Qc) (name : string)
  (d : dist) :
  trait_bucket (bump one two ht p name d) (negb (trait_prop ht name))
  = trait_bucket d (negb (trait_prop ht name)).
Proof.
  unfold bump.
  by destruct (gene_no_count one two name) as [-> | [-> | ->]],
    (trait_prop ht name).
Qed.

Lemma step_inv (people : gmap string person)
  (probabilities probabilities' : gmap string dist)
  (one two ht : gset string) :
  step people probabilities (one, two, ht) = Ok probabilities' →
  ∃ p, joint_probability people one two ht = Ok p
       ∧ probabilities'
         = map_imap (λ name d, Some (bump one two ht p name d)) probabilities.
Proof.
  unfold step. destruct (joint_probability people one two ht) as [p|e];
    [|done].
  rewrite bind_Ok, update_spec. intros [= <-]. by exists p.
Qed.

(** A run over hypotheses that agree with an observation leaves the
    opposite bucket as it was. *)
Lemma run_keeps_bucket (people : gmap string person) (who : string)
  (b : bool) (hs : list (gset string * gset string * gset string))
  (probabilities probabilities' : gmap string dist) (d : dist) :
  Forall (λ h, trait_prop h.2 who = b) hs →
  probabilities !! who = Some d →
  for_each (step people) hs probabilities = Ok probabilities' →
  ∃ d', probabilities' !! who = Some d'
        ∧ trait_bucket d' (negb b) = trait_bucket d (negb b).
Proof.
  intros Hall. revert probabilities d.
  induction Hall as [|[[one two] ht] hs Hh _ IH]; intros probs d Hd.
  - intros [= <-]. by exists d.
  - cbn [for_each].
    destruct (step people probs (one, two, ht)) as [probs1|e] eqn:E; [|done].
    rewrite bind_Ok. apply step_inv in E as (p & _ & ->). intros Hrun.
    destruct (IH _ (bump one two ht p who d)
                (eq_trans (map_lookup_imap _ _ _) ltac:(by rewrite Hd)) Hrun)
      as (d' & Hd' & Hb).
    exists d'. split; [done|]. rewrite Hb. simpl in Hh. rewrite <- Hh.
    apply trait_bucket_bump.
Qed.

(** C4: for a person whose trait is observed to be [b], no hypothesis that
    gives the person the other value reaches [joint_probability]; a call of
    [update] for a hypothesis that does leaves the person's bucket for the
    other value unchanged; and after any number of steps of the run that
    bucket is still zero. *)
Theorem evidence_consistency (people : gmap string person) (who : string)
  (pc : person) (b : bool) :
  people !! who = Some pc → p_trait pc = Some b →
  main_loop people
  = for_each (step people) (evaluated people) ((λ _, zero_dist) <$> people)
  ∧ (∀ one two ht,
       trait_prop ht who ≠ b → (one, two, ht) ∉ evaluated people)
  ∧ (∀ one two ht p probabilities probabilities' d,
       (one, two, ht) ∈ evaluated people →
       probabilities !! who = Some d →
       update probabilities one two ht p = Ok probabilities' →
       ∃ d', probabilities' !! who = Some d'
             ∧ trait_bucket d' (negb b) = trait_bucket d (negb b))
  ∧ (∀ hs probabilities,
       hs `prefix_of` evaluated people →
       for_each (step people) hs ((λ _, zero_dist) <$> people)
       = Ok probabilities →
       ∃ d, probabilities !! who = Some d ∧ trait_bucket d (negb b) = 0).
Proof.
  intros Hpc Hb. split_and!.
  - apply main_loop_evaluated.
  - intros one two ht Hne Hev. apply Hne.
    by apply (evaluated_agrees people who pc b one two ht).
  - intros one two ht p probs probs' d Hev Hd.
    rewrite update_spec. intros [= <-].
    exists (bump one two ht p who d). rewrite map_lookup_imap, Hd.
    split; [done|].
    rewrite <- (evaluated_agrees people who pc b one two ht) by done.
    apply trait_bucket_bump.
  - intros hs probs [rest Hrest] Hrun.
    assert (Forall (λ h, trait_prop h.2 who = b) hs) as Hall.
    { apply list.Forall_forall. intros [[one two] ht] Hin.
      apply (evaluated_agrees people who pc b one two ht); [done..|].
      rewrite Hrest. apply elem_of_app. by left. }
    assert (((λ _, zero_dist) <$> people) !! who = Some zero_dist) as H0
      by by rewrite lookup_fmap, Hpc.
    destruct (run_keeps_bucket people who b hs _ _ zero_dist Hall H0 Hrun)
      as (d & Hd & Hz).
    exists d. split; [done|]. rewrite Hz. by destruct b.
Qed.

Lemma evidence_consistency_witness :
  main_loop family
  = for_each (step family) (evaluated family) ((λ _, zero_dist) <$> family)
  ∧ (∀ one two ht,
       trait_prop ht "James" ≠ true → (one, two, ht) ∉ evaluated family)
  ∧ (∀ one two ht p probabilities probabilities' d,
       (one, two, ht) ∈ evaluated family →
       probabilities !! "James" = Some d →
       update probabilities one two ht p = Ok probabilities' →
       ∃ d', probabilities' !! "James" = Some d'
             ∧ trait_bucket d' (negb true) = trait_bucket d (negb true))
  ∧ (∀ hs probabilities,
       hs `prefix_of` evaluated family →
       for_each (step family) hs ((λ _, zero_dist) <$> family)
       = Ok probabilities →
       ∃ d, probabilities !! "James" = Some d
            ∧ trait_bucket d (negb true) = 0).
Proof.
  apply (evidence_consistency family "James"
           (Person "James" None None (Some true)) true).
  - reflexivity.
  - reflexivity.
Defined.

(** ** The whole run *)

Lemma step_spec (people : gmap string person)
  (probabilities : gmap string dist)
  (h : gset string * gset string * gset string) :
  wf_pedigree people →
  step people probabilities h
  = Ok (map_imap
          (λ name d, Some (bump h.1.1 h.1.2 h.2 (joint_of people h) name d))
          probabilities).
Proof.
  intros wf. destruct h as [[one two] ht]. unfold step.
  rewrite joint_probability_spec by done.
  by rewrite bind_Ok, update_spec.
Qed.

Lemma run_spec (people : gmap string person)
  (hs : list (gset string * gset string * gset string))
  (probabilities : gmap string dist) :
  wf_pedigree people →
  for_each (step people) hs probabilities
  = Ok (map_imap (λ name d, Some (tally people hs name d)) probabilities).
Proof.
  intros wf. revert probabilities.
  induction hs as [|h hs IH]; intros probs.
  - simpl. f_equal. apply map_eq. intros name.
    rewrite map_lookup_imap. by destruct (probs !! name).
  - cbn [for_each]. rewrite step_spec, bind_Ok, IH by done.
    f_equal. apply map_eq. intros name.
    rewrite !map_lookup_imap. by destruct (probs !! name).
Qed.

Lemma sums_bump (one two ht : gset string) (p : Qc) (name : string)
  (d : dist) :
  gene_sum (bump one two ht p name d) = gene_sum d + p
  ∧ trait_sum (bump one two ht p name d) = trait_sum d + p.
Proof.
  unfold bump, gene_sum, trait_sum.
  destruct (gene_no_count one two name) as [-> | [-> | ->]],
    (trait_prop ht name); cbn; split; ring.
Qed.

Lemma tally_cons (people : gmap string person)
  (h : gset string * gset string * gset string)
  (hs : list (gset string * gset string * gset string)) (name : string)
  (d : dist) :
  tally people (h :: hs) name d
  = tally people hs name (bump h.1.1 h.1.2 h.2 (joint_of people h) name d).
Proof. reflexivity. Qed.

Lemma mass_cons (people : gmap string person)
  (h : gset string * gset string * gset string)
  (hs : list (gset string * gset string * gset string)) :
  mass people (h :: hs) = joint_of people h + mass people hs.
Proof. reflexivity. Qed.

Lemma sums_tally (people : gmap string person)
  (hs : list (gset string * gset string * gset string)) (name : string)
  (d : dist) :
  gene_sum (tally people hs name d) = gene_sum d + mass people hs
  ∧ trait_sum (tally people hs name d) = trait_sum d + mass people hs.
Proof.
  revert d. induction hs as [|h hs IH]; intros d.
  - cbn. split; ring.
  - rewrite tally_cons, mass_cons.
    destruct (IH (bump h.1.1 h.1.2 h.2 (joint_of people h) name d))
      as [-> ->].
    destruct (sums_bump h.1.1 h.1.2 h.2 (joint_of people h) name d)
      as [-> ->].
    split; ring.
Qed.

Lemma mass_pos (people : gmap string person)
  (hs : list (gset string * gset string * gset string)) :
  hs ≠ [] → 0 < mass people hs.
Proof.
  assert (∀ h, 0 < joint_of people h) as Hj
    by (intros h; apply spec_joint_pos, gene_no_count).
  assert (∀ hs', 0 ≤ mass people hs') as Hnn.
  { induction hs' as [|h hs' IH]; [done|].
    rewrite mass_cons. apply Qcplus_nonneg_nonneg; [|done].
    by apply Qclt_le_weak. }
  destruct hs as [|h hs]; [done|]. intros _.
  rewrite mass_cons. by apply Qcplus_pos_nonneg.
Qed.

(** The trait set made of the people observed with the trait contradicts
    no observation, so some hypothesis is evaluated. *)
Lemma evaluated_nonempty (people : gmap string person) :
  evaluated people ≠ [].
Proof.
  assert ((∅, ∅, observed_true people) ∈ evaluated people) as Hin.
  { apply elem_of_evaluated. split.
    - apply violates_false. intros name pc Hpc. unfold observed_true.
      destruct (p_trait pc) as [[]|] eqn:Ht; [| |done]; simpl.
      + rewrite bool_decide_eq_true_2; [done|].
        apply elem_of_filter. rewrite Hpc. split; [done|].
        apply elem_of_dom. eauto.
      + rewrite bool_decide_eq_false_2; [done|].
        intros [Hn _]%elem_of_filter. rewrite Hpc in Hn. simpl in Hn.
        congruence.
    - apply elem_of_hypotheses. split_and!; [|done..].
      intros name [_ ?]%elem_of_filter. done. }
  intros E. rewrite E in Hin. by apply elem_of_nil in Hin.
Qed.

Lemma norm_dist_sums (d : dist) :
  gene_sum d ≠ 0 → trait_sum d ≠ 0 →
  gene_sum (norm_dist d) = 1 ∧ trait_sum (norm_dist d) = 1.
Proof.
  intros Hg Ht. unfold norm_dist. split.
  - unfold gene_sum at 1. cbn [gene0 gene1 gene2].
    transitivity (gene_sum d / gene_sum d); [unfold gene_sum; field; done|].
    by apply Qcmult_inv_r.
  - unfold trait_sum at 1. cbn [traitT traitF].
    transitivity (trait_sum d / trait_sum d);
      [unfold trait_sum; field; done|].
    by apply Qcmult_inv_r.
Qed.

Lemma normalize_nonzero (probabilities : gmap string dist) :
  (∀ name d, probabilities !! name = Some d → ¬ zero_total d) →
  normalize probabilities = Ok (norm_dist <$> probabilities).
Proof.
  intros Hnz.
  destruct (normalize_loop_ok (keys probabilities) probabilities)
    as (probs' & E & Hlook).
  - apply NoDup_keys.
  - intros name [d Hd]%elem_of_keys. exists d. split; [done|]. by eapply Hnz.
  - transitivity (Ok probs'); [exact E|]. f_equal. apply map_eq.
    intros name. rewrite Hlook, lookup_fmap.
    destruct (probabilities !! name) as [d|] eqn:Hd.
    + rewrite decide_True; [done|]. apply elem_of_keys. eauto.
    + by case_decide.
Qed.

Lemma normalize_positive (probabilities : gmap string dist) :
  map_Forall (λ _ d, 0 < gene_sum d ∧ 0 < trait_sum d) probabilities →
  normalize probabilities = Ok (norm_dist <$> probabilities).
Proof.
  intros Hpos. apply normalize_nonzero. intros name d Hd [Hz|Hz];
    destruct (Hpos _ _ Hd) as [Hg Ht].
  - apply Qclt_not_eq in Hg. congruence.
  - apply Qclt_not_eq in Ht. congruence.
Qed.

(** What the loops hand to [normalize], and what [main] returns. *)
Lemma main_spec (people : gmap string person) :
  wf_pedigree people →
  main_loop people
  = Ok (map_imap (λ name d, Some (tally people (evaluated people) name d))
          ((λ _, zero_dist) <$> people))
  ∧ main people
    = Ok (norm_dist
            <$> map_imap
                  (λ name d, Some (tally people (evaluated people) name d))
                  ((λ _, zero_dist) <$> people))
  ∧ ∀ who d,
      map_imap (λ name d, Some (tally people (evaluated people) name d))
        ((λ _, zero_dist) <$> people) !! who = Some d →
      is_Some (people !! who)
      ∧ d = tally people (evaluated people) who zero_dist
      ∧ 0 < gene_sum d ∧ 0 < trait_sum d.
Proof.
  intros wf.
  assert (main_loop people
          = Ok (map_imap
                  (λ name d, Some (tally people (evaluated people) name d))
                  ((λ _, zero_dist) <$> people))) as Hloop
    by (by rewrite main_loop_evaluated, run_spec).
  assert (∀ who d,
    map_imap (λ name d, Some (tally people (evaluated people) name d))
      ((λ _, zero_dist) <$> people) !! who = Some d →
    is_Some (people !! who)
    ∧ d = tally people (evaluated people) who zero_dist
    ∧ 0 < gene_sum d ∧ 0 < trait_sum d) as Hacc.
  { intros who d. rewrite map_lookup_imap, lookup_fmap.
    destruct (people !! who) as [pc|]; [|done]. simpl. intros [= <-].
    destruct (sums_tally people (evaluated people) who zero_dist)
      as [-> ->].
    pose proof (mass_pos people _ (evaluated_nonempty people)) as Hm.
    split_and!; [by eexists | done | |];
      by rewrite (left_id_L 0 Qcplus). }
  split_and!; [done | | done].
  unfold main. rewrite Hloop, bind_Ok.
  apply normalize_positive. intros who d Hd.
  by destruct (Hacc _ _ Hd) as (_ & _ & ? & ?).
Qed.



(** ** A single founder *)

Lemma powerset_empty : powerset ∅ = [∅].
Proof. unfold powerset. by rewrite elements_empty. Qed.

Lemma powerset_singleton (x : string) : powerset {[x]} = [∅; {[x]}].
Proof.
  unfold powerset. rewrite elements_singleton. cbn.
  by rewrite (right_id_L ∅ (∪)).
Qed.

Lemma hypotheses_singleton (x : string) :
  hypotheses {[x]}
  = [(∅, ∅, ∅); (∅, {[x]}, ∅); ({[x]}, ∅, ∅);
     (∅, ∅, {[x]}); (∅, {[x]}, {[x]}); ({[x]}, ∅, {[x]})].
Proof.
  unfold hypotheses, gene_pairs. rewrite powerset_singleton. cbn.
  rewrite difference_empty_L, difference_diag_L.
  rewrite powerset_singleton, powerset_empty. done.
Qed.

Section one_founder.
Context (name : string).

Lemma evaluated_single_founder :
  evaluated (single_founder name) = hypotheses {[name]}.
Proof.
  assert (∀ ht, violates (single_founder name) ht = false) as Hv.
  { intros ht. apply violates_false. intros who pc.
    unfold single_founder. by intros [-> <-]%lookup_singleton_Some. }
  unfold evaluated, single_founder. rewrite dom_singleton_L.
  rewrite hypotheses_singleton.
  repeat rewrite filter_cons_True by apply Hv. done.
Qed.

Lemma gene_no_single :
  gene_no ∅ ∅ name = 0%Z ∧ gene_no ∅ {[name]} name = 2%Z
  ∧ gene_no {[name]} ∅ name = 1%Z.
Proof.
  unfold gene_no. split_and!.
  - by rewrite !bool_decide_eq_false_2 by set_solver.
  - rewrite bool_decide_eq_false_2 by set_solver.
    by rewrite bool_decide_eq_true_2 by set_solver.
  - by rewrite bool_decide_eq_true_2 by set_solver.
Qed.

Lemma trait_prop_single :
  trait_prop ∅ name = false ∧ trait_prop {[name]} name = true.
Proof.
  unfold trait_prop. split.
  - by rewrite bool_decide_eq_false_2 by set_solver.
  - by rewrite bool_decide_eq_true_2 by set_solver.
Qed.

Lemma joint_of_single_founder (h : gset string * gset string * gset string) :
  joint_of (single_founder name) h
  = entry (PROBS_trait (gene_no h.1.1 h.1.2 name) (trait_prop h.2 name))
    * entry (PROBS_gene (gene_no h.1.1 h.1.2 name)).
Proof.
  unfold joint_of, spec_joint, single_founder.
  rewrite map_to_list_singleton. cbn. unfold spec_factor, spec_gene_factor.
  cbn. ring.
Qed.

Lemma bump_single_founder (p a b c e f : Qc) :
  bump ∅ ∅ ∅ p name (Dist a b c e f) = Dist (a + p) b c e (f + p)
  ∧ bump ∅ {[name]} ∅ p name (Dist a b c e f) = Dist a b (c + p) e (f + p)
  ∧ bump {[name]} ∅ ∅ p name (Dist a b c e f) = Dist a (b + p) c e (f + p)
  ∧ bump ∅ ∅ {[name]} p name (Dist a b c e f) = Dist (a + p) b c (e + p) f
  ∧ bump ∅ {[name]} {[name]} p name (Dist a b c e f)
    = Dist a b (c + p) (e + p) f
  ∧ bump {[name]} ∅ {[name]} p name (Dist a b c e f)
    = Dist a (b + p) c (e + p) f.
Proof.
  destruct gene_no_single as (G0 & G2 & G1).
  destruct trait_prop_single as (T0 & T1).
  unfold bump. by rewrite G0, G1, G2, T0, T1.
Qed.

Lemma tally_single_founder :
  tally (single_founder name) (evaluated (single_founder name)) name zero_dist
  = Dist (dec 96 100) (dec 3 100) (dec 1 100) (dec 329 10000)
      (dec 9671 10000).
Proof.
  rewrite evaluated_single_founder, hypotheses_singleton.
  destruct gene_no_single as (G0 & G2 & G1).
  destruct trait_prop_single as (T0 & T1).
  unfold tally. cbn [foldl]. rewrite !joint_of_single_founder.
  cbn [fst snd]. rewrite G0, G1, G2, T0, T1. unfold zero_dist.
  rewrite (proj1 (bump_single_founder _ _ _ _ _ _)).
  rewrite (proj1 (proj2 (bump_single_founder _ _ _ _ _ _))).
  rewrite (proj1 (proj2 (proj2 (bump_single_founder _ _ _ _ _ _)))).
  rewrite (proj1 (proj2 (proj2 (proj2 (bump_single_founder _ _ _ _ _ _))))).
  rewrite (proj1 (proj2 (proj2 (proj2 (proj2
             (bump_single_founder _ _ _ _ _ _)))))).
  rewrite (proj2 (proj2 (proj2 (proj2 (proj2
             (bump_single_founder _ _ _ _ _ _)))))).
  cbn [PROBS_trait PROBS_gene entry].
  f_equal; apply Qc_is_canon; vm_compute; reflexivity.
Qed.
End one_founder.

Lemma wf_single_founder (name : string) : wf_pedigree (single_founder name).
Proof.
  unfold wf_pedigree, single_founder. by apply map_Forall_singleton.
Qed.


(** ** The embedding on concrete inputs *)

Example powerset_three :
  elements <$> powerset {[ "A"; "B"; "C" ]}
  = [[]; ["C"]; ["A"]; ["B"]; ["C"; "A"]; ["C"; "B"]; ["A"; "B"];
     ["C"; "A"; "B"]].
Proof. vm_compute. reflexivity. Qed.

Example hypotheses_family : length (evaluated family) = 54%nat.
Proof. vm_compute. reflexivity. Qed.

(** The posterior of the child of [family]: about 0.5351, 0.4557 and 0.0092
    for 0, 1 and 2 copies, and 0.2665 for the trait. *)
Example main_family_Harry :
  (λ m, fractions <$> m !! "Harry") <$> (match main family with
                                          | Ok m => Some m
                                          | Raise _ => None
                                          end)
  = Some (Some [2432312077 # 4545370000; 1035658623 # 2272685000;
                41740677 # 4545370000; 60569610929 # 227268500000;
                166698889071 # 227268500000]%Q).
Proof. vm_compute. reflexivity. Qed.

Example normalize_untouched :
  normalize {[ "A" := zero_dist ]} = Raise ZeroDivisionError.
Proof. vm_compute. reflexivity. Qed.

(** Without the loader's promise the evaluation stops at the missing row. *)
Example joint_probability_orphan :
  joint_probability orphan ∅ ∅ ∅ = Raise KeyError.
Proof. vm_compute. reflexivity. Qed.

(** A founder with a gene count that is no key of the prior. *)
Example founder_bad_count :
  child_parent_prob "James" family
    (<["James" := Req 3 false]> bad_request)
  = Raise KeyError.
Proof. vm_compute. reflexivity. Qed.

(** * Further properties of the code *)

(** ** [load_data] *)

Lemma load_data_snoc (rows : list row) (r : row) :
  load_data (rows ++ [r])
  = <[row_name r := person_of_row r]> (load_data rows).
Proof. unfold load_data. by rewrite foldl_app. Qed.

Lemma load_data_lookup_absent (rows : list row) (name : string) :
  name ∉ row_name <$> rows → load_data rows !! name = None.
Proof.
  induction rows as [|r rows IH] using rev_ind; intros Hn; [done|].
  rewrite load_data_snoc. rewrite fmap_app in Hn.
  apply not_elem_of_app in Hn as [Hn1 Hn2].
  rewrite lookup_insert_ne; [by apply IH|].
  intros E. apply Hn2. rewrite <- E. by left.
Qed.

Lemma load_data_lookup_last (before after : list row) (r : row) :
  row_name r ∉ row_name <$> after →
  load_data (before ++ r :: after) !! row_name r = Some (person_of_row r).
Proof.
  induction after as [|r' after IH] using rev_ind; intros Hn.
  - rewrite load_data_snoc. apply lookup_insert_eq.
  - rewrite fmap_app in Hn. apply not_elem_of_app in Hn as [Hn1 Hn2].
    rewrite app_comm_cons, app_assoc, load_data_snoc.
    rewrite lookup_insert_ne; [by apply IH|].
    intros E. apply Hn2. rewrite <- E. by left.
Qed.

Lemma dom_load_data (rows : list row) :
  dom (load_data rows) = list_to_set (row_name <$> rows).
Proof.
  induction rows as [|r rows IH] using rev_ind; [done|].
  rewrite load_data_snoc, dom_insert_L, IH, fmap_app, list_to_set_app_L.
  set_solver.
Qed.

(** Every record of the table comes from a row with its name. *)
Lemma load_data_lookup_row (rows : list row) (name : string) (pc : person) :
  load_data rows !! name = Some pc →
  ∃ r, r ∈ rows ∧ row_name r = name ∧ pc = person_of_row r.
Proof.
  induction rows as [|r rows IH] using rev_ind; [done|].
  rewrite load_data_snoc. destruct (decide (row_name r = name)) as [E|Hne].
  - rewrite <- E, lookup_insert_eq. intros [= <-].
    exists r. split; [|done]. apply elem_of_app. right. by left.
  - rewrite lookup_insert_ne by done. intros (r' & Hin & ? & ?)%IH.
    exists r'. split; [|done]. apply elem_of_app. by left.
Qed.

(** X1: [load_data] keeps one record per name, the one of the last row with
    that name; the names of the table are the names of the rows; a blank
    mother or father is stored as [None], never as an empty string; the
    trait is [True] for "1", [False] for "0" and [None] for anything else. *)
Theorem load_data_table (rows : list row) :
  dom (load_data rows) = list_to_set (row_name <$> rows)
  ∧ (∀ before r after,
       rows = before ++ r :: after →
       row_name r ∉ row_name <$> after →
       load_data rows !! row_name r = Some (person_of_row r))
  ∧ (∀ name pc, load_data rows !! name = Some pc →
       p_name pc = name
       ∧ p_mother pc ≠ Some "" ∧ p_father pc ≠ Some ""
       ∧ ∃ r, r ∈ rows ∧ row_name r = name
              ∧ (p_mother pc = None ↔ row_mother r = "")
              ∧ (p_father pc = None ↔ row_father r = "")
              ∧ (p_trait pc = Some true ↔ row_trait r = "1")
              ∧ (p_trait pc = Some false ↔ row_trait r = "0")).
Proof.
  split_and!.
  - apply dom_load_data.
  - intros before r after -> Hn. by apply load_data_lookup_last.
  - intros name pc (r & Hin & <- & ->)%load_data_lookup_row.
    unfold person_of_row, or_none, parse_trait. cbn.
    split_and!; [done | | |].
    + destruct (String.eqb_spec (row_mother r) ""); congruence.
    + destruct (String.eqb_spec (row_father r) ""); congruence.
    + exists r. split_and!; [done | done | | | |].
      * by destruct (String.eqb_spec (row_mother r) "").
      * by destruct (String.eqb_spec (row_father r) "").
      * destruct (String.eqb_spec (row_trait r) "1") as [->|?]; [done|].
        by destruct (String.eqb_spec (row_trait r) "0").
      * destruct (String.eqb_spec (row_trait r) "1") as [->|?]; [done|].
        by destruct (String.eqb_spec (row_trait r) "0").
Qed.

Example load_data_family : load_data family_rows = family.
Proof. vm_compute. reflexivity. Qed.

Lemma wf_load_data (rows : list row) :
  forallb (row_ok rows) rows = true → wf_pedigree (load_data rows).
Proof.
  intros Hok name pc (r & Hin & <- & ->)%load_data_lookup_row.
  assert (row_ok rows r = true) as Hr.
  { rewrite forallb_forall in Hok. by apply Hok, list_elem_of_In. }
  unfold row_ok in Hr. unfold wf_person, person_of_row, or_none. cbn.
  rewrite dom_load_data.
  destruct (String.eqb (row_mother r) "") eqn:Em,
    (String.eqb (row_father r) "") eqn:Ef; cbn in *; try done.
  apply andb_true_iff in Hr as [Hm Hf].
  apply bool_decide_eq_true in Hm, Hf.
  rewrite Em, Ef.
  rewrite !bool_decide_eq_true_2; [done | |]; by apply elem_of_list_to_set.
Qed.



(** ** Errors of [joint_probability] *)

Lemma build_request_lookup_None (names : list string) (one two ht : gset string)
  (name : string) :
  name ∉ names → build_request names one two ht !! name = None.
Proof.
  intros H. unfold build_request. rewrite build_request_acc.
  by rewrite decide_False.
Qed.

Lemma transmit_missing (people : gmap string person) (one two ht : gset string)
  (v : option string) (k : Z) :
  resolves people v = false →
  transmit (build_request (keys people) one two ht) v k = Raise KeyError.
Proof.
  unfold resolves, transmit, getitem. destruct v as [s|]; [|done].
  intros Hs%bool_decide_eq_false.
  rewrite build_request_lookup_None; [done|].
  rewrite elem_of_keys, <- elem_of_dom. done.
Qed.

Lemma Qc_unit_mult (a b : Qc) :
  0 < a → a ≤ 1 → 0 < b → b ≤ 1 → 0 < a * b ∧ a * b ≤ 1.
Proof.
  intros Ha Ha1 Hb Hb1. split; [by apply Qcmult_pos_pos|].
  transitivity (1 * b); [|by rewrite Qcmult_1_l].
  apply Qcmult_le_mono_nonneg_r; [by apply Qclt_le_weak | done].
Qed.

Lemma child_parent_prob_outcome (people : gmap string person)
  (one two ht : gset string) (name : string) (pc : person) :
  people !! name = Some pc →
  (parents_resolve people pc = true →
   ∃ cp, child_parent_prob name people
           (build_request (keys people) one two ht) = Ok cp
         ∧ 0 < cp ∧ cp ≤ 1)
  ∧ (parents_resolve people pc = false →
     child_parent_prob name people (build_request (keys people) one two ht)
     = Raise KeyError).
Proof.
  intros Hpc.
  assert (name ∈ dom people) as Hdom by (apply elem_of_dom; eauto).
  pose proof (request_lookup people one two ht name Hdom) as Hreq.
  unfold parents_resolve. destruct (truthy (p_mother pc)) eqn:Ht.
  - destruct (p_mother pc) as [mum|] eqn:Hm; [|done].
    apply truthy_Some in Ht. split.
    + intros [Hrm Hrf]%andb_true_iff.
      destruct (p_father pc) as [dad|] eqn:Hf; [|done].
      apply bool_decide_eq_true in Hrm, Hrf.
      rewrite (child_parent_prob_nonfounder _ _ _ _ _ _ _ _ _
                 Hpc Hm Ht Hf (request_assigns people one two ht _ Hdom)
                 (request_assigns people one two ht _ Hrm)
                 (request_assigns people one two ht _ Hrf)).
      destruct (gene_no_count one two name) as [-> | [-> | ->]],
        (gene_no_count one two mum) as [-> | [-> | ->]],
        (gene_no_count one two dad) as [-> | [-> | ->]];
        eexists; (split; [reflexivity|]); by vm_compute.
    + intros Hbad. unfold child_parent_prob.
      rewrite (getitem_Some _ _ _ Hpc), bind_Ok, Hm.
      rewrite (proj2 (truthy_Some mum) Ht).
      rewrite (getitem_Some _ _ _ Hreq), bind_Ok. cbn [r_gene].
      destruct (resolves people (Some mum)) eqn:Hrm.
      * simpl in Hbad.
        rewrite !(transmit_missing _ _ _ _ (p_father pc) _ Hbad).
        apply bool_decide_eq_true in Hrm.
        rewrite !(transmit_assigns _ _ _ _
                    (request_assigns people one two ht _ Hrm)).
        destruct (gene_no_count one two name) as [-> | [-> | ->]],
          (gene_no_count one two mum) as [-> | [-> | ->]]; reflexivity.
      * rewrite !(transmit_missing _ _ _ _ (Some mum) _ Hrm).
        by destruct (gene_no_count one two name) as [-> | [-> | ->]].
  - split; [|done]. intros _.
    rewrite (child_parent_prob_founder _ _ _ _ _ Hpc Ht Hreq). cbn [r_gene].
    destruct (gene_no_count one two name) as [-> | [-> | ->]];
      eexists; (split; [reflexivity|]); by vm_compute.
Qed.

Lemma joint_probability_loop_outcome (people : gmap string person)
  (one two ht : gset string) (l : list (string * person)) (total : Qc) :
  (∀ name pc, (name, pc) ∈ l → people !! name = Some pc) →
  (Forall (λ x, parents_resolve people x.2 = true) l →
   ∃ q, for_each (λ total_prob name,
          let current_prob := 1 in
          cp ← child_parent_prob name people
                 (build_request (keys people) one two ht);
          let current_prob := current_prob * cp in
          r ← getitem (build_request (keys people) one two ht) (Some name);
          t ← PROBS_trait (r_gene r) (r_trait r);
          let current_prob := current_prob * t in
          Ok (total_prob * current_prob)) l.*1 total
        = Ok (total * q)
        ∧ 0 < q ∧ q ≤ 1)
  ∧ (Exists (λ x, parents_resolve people x.2 = false) l →
     for_each (λ total_prob name,
       let current_prob := 1 in
       cp ← child_parent_prob name people
              (build_request (keys people) one two ht);
       let current_prob := current_prob * cp in
       r ← getitem (build_request (keys people) one two ht) (Some name);
       t ← PROBS_trait (r_gene r) (r_trait r);
       let current_prob := current_prob * t in
       Ok (total_prob * current_prob)) l.*1 total
     = Raise KeyError).
Proof.
  revert total. induction l as [|[name pc] l IH]; intros total Hl.
  - split.
    + intros _. exists 1. split; [|done]. simpl. f_equal. ring.
    + intros H. by apply Exists_nil in H.
  - assert (people !! name = Some pc) as Hpc by (apply Hl; left).
    assert (name ∈ dom people) as Hdom by (apply elem_of_dom; eauto).
    destruct (child_parent_prob_outcome people one two ht name pc Hpc)
      as [Hgood Hbad].
    destruct (PROBS_trait_pos _ (trait_prop ht name)
                (gene_no_count one two name)) as (t & Et & Ht0).
    assert (t ≤ 1) as Ht1.
    { revert Et. destruct (gene_no_count one two name) as [-> | [-> | ->]],
        (trait_prop ht name); intros [= <-]; by vm_compute. }
    cbn [fmap list_fmap for_each fst].
    destruct (parents_resolve people pc) eqn:Hres.
    + destruct (Hgood eq_refl) as (cp & -> & Hcp0 & Hcp1).
      rewrite bind_Ok.
      rewrite (getitem_Some _ _ _ (request_lookup people one two ht _ Hdom)).
      rewrite bind_Ok. cbn [r_gene r_trait]. rewrite Et, !bind_Ok.
      destruct (IH (total * (1 * cp * t))) as [IHgood IHbad].
      { intros ???. apply Hl. by right. }
      split.
      * intros [_ Hall]%Forall_cons.
        destruct (IHgood Hall) as (q & E & Hq0 & Hq1).
        destruct (Qc_unit_mult cp t Hcp0 Hcp1 Ht0 Ht1) as [Hc0 Hc1].
        destruct (Qc_unit_mult _ _ Hc0 Hc1 Hq0 Hq1) as [Hp0 Hp1].
        exists (cp * t * q). split; [|done].
        etrans; [exact E|]. f_equal. ring.
      * intros [Hx|Hex]%Exists_cons; [simpl in Hx; congruence|].
        by apply IHbad.
    + rewrite (Hbad eq_refl). split; [|done].
      intros [Hx _]%Forall_cons. simpl in Hx. congruence.
Qed.

Lemma joint_probability_resolved (people : gmap string person)
  (one two ht : gset string) :
  map_Forall (λ _ pc, parents_resolve people pc = true) people →
  ∃ p, joint_probability people one two ht = Ok p ∧ 0 < p ∧ p ≤ 1.
Proof.
  intros Hall.
  destruct (joint_probability_loop_outcome people one two ht
              (map_to_list people) 1) as [Hgood _].
  { intros name pc H. by apply elem_of_map_to_list. }
  destruct Hgood as (q & E & Hq0 & Hq1).
  { apply list.Forall_forall. intros [name pc] Hin.
    by apply (Hall name pc), elem_of_map_to_list. }
  exists q. split; [|done]. etrans; [exact E|]. f_equal. ring.
Qed.

Lemma joint_probability_dangling (people : gmap string person)
  (one two ht : gset string) :
  map_Exists (λ _ pc, parents_resolve people pc = false) people →
  joint_probability people one two ht = Raise KeyError.
Proof.
  intros (name & pc & Hpc & Hbad).
  destruct (joint_probability_loop_outcome people one two ht
              (map_to_list people) 1) as [_ Hraise].
  { intros ?? H. by apply elem_of_map_to_list. }
  apply Hraise, Exists_exists. exists (name, pc).
  split; [by apply elem_of_map_to_list | done].
Qed.

Lemma resolve_dichotomy (people : gmap string person) :
  map_Forall (λ _ pc, parents_resolve people pc = true) people
  ∨ map_Exists (λ _ pc, parents_resolve people pc = false) people.
Proof.
  destruct (decide (map_Exists (λ _ pc, parents_resolve people pc = false)
                      people)) as [|Hno]; [by right|].
  left. intros name pc Hpc.
  destruct (parents_resolve people pc) eqn:E; [done|].
  destruct Hno. by exists name, pc.
Qed.


(** ** The run, for tables whose parent references resolve *)

Lemma tally_with_cons (w : gset string * gset string * gset string → Qc)
  (h : gset string * gset string * gset string)
  (hs : list (gset string * gset string * gset string)) (name : string)
  (d : dist) :
  tally_with w (h :: hs) name d
  = tally_with w hs name (bump h.1.1 h.1.2 h.2 (w h) name d).
Proof. reflexivity. Qed.

Lemma mass_with_cons (w : gset string * gset string * gset string → Qc)
  (h : gset string * gset string * gset string)
  (hs : list (gset string * gset string * gset string)) :
  mass_with w (h :: hs) = w h + mass_with w hs.
Proof. reflexivity. Qed.

Lemma step_Ok (people : gmap string person)
  (probabilities : gmap string dist)
  (h : gset string * gset string * gset string) (p : Qc) :
  joint_probability people h.1.1 h.1.2 h.2 = Ok p →
  step people probabilities h
  = Ok (map_imap (λ name d, Some (bump h.1.1 h.1.2 h.2 p name d))
          probabilities).
Proof.
  destruct h as [[one two] ht]. cbn [fst snd]. intros E. unfold step.
  by rewrite E, bind_Ok, update_spec.
Qed.

Lemma run_with (people : gmap string person)
  (w : gset string * gset string * gset string → Qc)
  (hs : list (gset string * gset string * gset string))
  (probabilities : gmap string dist) :
  (∀ h, h ∈ hs → joint_probability people h.1.1 h.1.2 h.2 = Ok (w h)) →
  for_each (step people) hs probabilities
  = Ok (map_imap (λ name d, Some (tally_with w hs name d)) probabilities).
Proof.
  revert probabilities. induction hs as [|h hs IH]; intros probs Hw.
  - simpl. f_equal. apply map_eq. intros name.
    rewrite map_lookup_imap. by destruct (probs !! name).
  - cbn [for_each]. rewrite (step_Ok _ _ _ _ (Hw h ltac:(left))), bind_Ok.
    rewrite IH by (intros ??; apply Hw; by right).
    f_equal. apply map_eq. intros name.
    rewrite !map_lookup_imap. by destruct (probs !! name).
Qed.

Lemma mass_with_nonneg (w : gset string * gset string * gset string → Qc)
  (hs : list (gset string * gset string * gset string)) :
  (∀ h, h ∈ hs → 0 < w h) → 0 ≤ mass_with w hs.
Proof.
  induction hs as [|h hs IH]; intros Hw; [done|].
  rewrite mass_with_cons. apply Qcplus_nonneg_nonneg.
  - apply Qclt_le_weak, Hw. by left.
  - apply IH. intros ??. apply Hw. by right.
Qed.

Lemma mass_with_pos (w : gset string * gset string * gset string → Qc)
  (hs : list (gset string * gset string * gset string)) :
  (∀ h, h ∈ hs → 0 < w h) → hs ≠ [] → 0 < mass_with w hs.
Proof.
  destruct hs as [|h hs]; [done|]. intros Hw _.
  rewrite mass_with_cons. apply Qcplus_pos_nonneg.
  - apply Hw. by left.
  - apply mass_with_nonneg. intros ??. apply Hw. by right.
Qed.

(** What one update does to the buckets of an entry. *)
Lemma buckets_bump (one two ht : gset string) (p : Qc) (name : string)
  (d : dist) (k : Z) (b : bool) :
  gene_count k →
  gene_bucket (bump one two ht p name d) k
  = gene_bucket d k
    + (if decide (gene_no one two name = k) then p else 0)
  ∧ trait_bucket (bump one two ht p name d) b
    = trait_bucket d b
      + (if decide (trait_prop ht name = b) then p else 0).
Proof.
  intros Hk. unfold bump.
  destruct (gene_no_count one two name) as [-> | [-> | ->]],
    Hk as [-> | [-> | ->]], (trait_prop ht name), b;
    cbn [gene_bucket trait_bucket add_trait gene0 gene1 gene2 traitT traitF];
    repeat match goal with
           | |- context [decide ?P] => destruct (decide P); try done
           end;
    split; ring.
Qed.

Lemma buckets_tally_with
  (w : gset string * gset string * gset string → Qc)
  (hs : list (gset string * gset string * gset string)) (name : string)
  (d : dist) (k : Z) (b : bool) :
  gene_count k →
  gene_bucket (tally_with w hs name d) k
  = gene_bucket d k
    + mass_with w (filter (λ h, gene_no h.1.1 h.1.2 name = k) hs)
  ∧ trait_bucket (tally_with w hs name d) b
    = trait_bucket d b
      + mass_with w (filter (λ h, trait_prop h.2 name = b) hs).
Proof.
  intros Hk. revert d. induction hs as [|h hs IH]; intros d.
  - cbn. split; ring.
  - rewrite tally_with_cons.
    destruct (IH (bump h.1.1 h.1.2 h.2 (w h) name d)) as [-> ->].
    destruct (buckets_bump h.1.1 h.1.2 h.2 (w h) name d k b Hk) as [-> ->].
    rewrite !filter_cons. split.
    + destruct (decide (gene_no h.1.1 h.1.2 name = k));
        rewrite ?mass_with_cons; ring.
    + destruct (decide (trait_prop h.2 name = b));
        rewrite ?mass_with_cons; ring.
Qed.

Lemma sums_tally_with (w : gset string * gset string * gset string → Qc)
  (hs : list (gset string * gset string * gset string)) (name : string)
  (d : dist) :
  gene_sum (tally_with w hs name d) = gene_sum d + mass_with w hs
  ∧ trait_sum (tally_with w hs name d) = trait_sum d + mass_with w hs.
Proof.
  revert d. induction hs as [|h hs IH]; intros d.
  - cbn. split; ring.
  - rewrite tally_with_cons, mass_with_cons.
    destruct (IH (bump h.1.1 h.1.2 h.2 (w h) name d)) as [-> ->].
    destruct (sums_bump h.1.1 h.1.2 h.2 (w h) name d) as [-> ->].
    split; ring.
Qed.

Section resolved.
Context (people : gmap string person).
Hypothesis resolved :
  map_Forall (λ _ pc, parents_resolve people pc = true) people.

Lemma weight_spec (h : gset string * gset string * gset string) :
  joint_probability people h.1.1 h.1.2 h.2 = Ok (weight people h)
  ∧ 0 < weight people h ∧ weight people h ≤ 1.
Proof.
  unfold weight.
  by destruct (joint_probability_resolved people h.1.1 h.1.2 h.2 resolved)
    as (p & -> & ?).
Qed.

Lemma main_loop_resolved : main_loop people = Ok (accumulated people).
Proof.
  rewrite main_loop_evaluated. apply run_with.
  intros h _. apply weight_spec.
Qed.

Lemma accumulated_lookup (who : string) (d : dist) :
  accumulated people !! who = Some d ↔
  is_Some (people !! who)
  ∧ d = tally_with (weight people) (evaluated people) who zero_dist.
Proof.
  unfold accumulated. rewrite map_lookup_imap, lookup_fmap.
  destruct (people !! who) as [pc|]; simpl.
  - split; [intros [= <-]; eauto | by intros [_ ->]].
  - split; [done | by intros [[? ?] _]].
Qed.

Lemma accumulated_totals (who : string) (d : dist) :
  accumulated people !! who = Some d →
  gene_sum d = mass_with (weight people) (evaluated people)
  ∧ trait_sum d = mass_with (weight people) (evaluated people)
  ∧ 0 < mass_with (weight people) (evaluated people).
Proof.
  intros [_ ->]%accumulated_lookup.
  destruct (sums_tally_with (weight people) (evaluated people) who zero_dist)
    as [-> ->].
  split_and!; [by rewrite (left_id_L 0 Qcplus).. |].
  apply mass_with_pos; [|apply evaluated_nonempty].
  intros h _. apply weight_spec.
Qed.

Lemma main_resolved :
  main people = Ok (norm_dist <$> accumulated people).
Proof.
  unfold main. rewrite main_loop_resolved, bind_Ok.
  apply normalize_positive. intros who d Hd.
  destruct (accumulated_totals who d Hd) as (-> & -> & Hpos). done.
Qed.
End resolved.

Lemma dom_accumulated (people : gmap string person) :
  dom (accumulated people) = dom people.
Proof.
  apply set_eq. intros who. unfold accumulated.
  rewrite !elem_of_dom, map_lookup_imap, lookup_fmap.
  destruct (people !! who); simpl; split; intros [? ?]; by eauto.
Qed.

Lemma step_Raise (people : gmap string person)
  (probabilities : gmap string dist)
  (h : gset string * gset string * gset string) (e : exn) :
  joint_probability people h.1.1 h.1.2 h.2 = Raise e →
  step people probabilities h = Raise e.
Proof.
  destruct h as [[one two] ht]. cbn [fst snd]. intros E. unfold step.
  by rewrite E.
Qed.

Lemma main_dangling (people : gmap string person) :
  map_Exists (λ _ pc, parents_resolve people pc = false) people →
  main_loop people = Raise KeyError ∧ main people = Raise KeyError.
Proof.
  intros Hex.
  assert (main_loop people = Raise KeyError) as Hloop.
  { rewrite main_loop_evaluated.
    pose proof (evaluated_nonempty people) as Hne.
    destruct (evaluated people) as [|[[one two] ht] hs]; [done|].
    cbn [for_each]. rewrite (step_Raise _ _ _ KeyError); [done|].
    by apply joint_probability_dangling. }
  split; [done|]. unfold main. by rewrite Hloop.
Qed.


(** ** Marginals *)



(** ** The posterior *)

Lemma mass_with_filter_none
  (w : gset string * gset string * gset string → Qc)
  (P : gset string * gset string * gset string → Prop)
  `{!∀ h, Decision (P h)}
  (hs : list (gset string * gset string * gset string)) :
  Forall (λ h, ¬ P h) hs → mass_with w (filter P hs) = 0.
Proof.
  induction 1 as [|h hs Hh _ IH]; [done|].
  by rewrite filter_cons_False.
Qed.

Lemma trait_bucket_norm_dist (d : dist) (b : bool) :
  trait_bucket (norm_dist d) b = trait_bucket d b / trait_sum d.
Proof. by destruct b. Qed.

Lemma gene_bucket_norm_dist (d : dist) (k : Z) :
  gene_bucket (norm_dist d) k = gene_bucket d k / gene_sum d.
Proof. unfold gene_bucket. by repeat case_match. Qed.

Lemma trait_sum_buckets (d : dist) (b : bool) :
  trait_sum d = trait_bucket d b + trait_bucket d (negb b).
Proof. unfold trait_sum. destruct b; cbn; ring. Qed.

Lemma gene_sum_buckets (d : dist) :
  gene_sum d = gene_bucket d 0 + gene_bucket d 1 + gene_bucket d 2.
Proof. reflexivity. Qed.

Lemma observed_true_consistent (people : gmap string person) :
  violates people (observed_true people) = false.
Proof.
  apply violates_false. intros name pc Hpc. unfold observed_true.
  destruct (p_trait pc) as [[]|] eqn:Ht; [| |done]; simpl.
  - rewrite bool_decide_eq_true_2; [done|].
    apply elem_of_filter. rewrite Hpc. split; [done|].
    apply elem_of_dom. eauto.
  - rewrite bool_decide_eq_false_2; [done|].
    intros [Hn _]%elem_of_filter. rewrite Hpc in Hn. simpl in Hn.
    congruence.
Qed.



(** For every person and every gene count some evaluated hypothesis gives
    the person that count. *)
Lemma evaluated_gene_count (people : gmap string person) (who : string)
  (k : Z) :
  is_Some (people !! who) → gene_count k →
  ∃ h, h ∈ evaluated people ∧ gene_no h.1.1 h.1.2 who = k.
Proof.
  intros Hwho%elem_of_dom Hk.
  assert (∀ one two, one ⊆ dom people → two ⊆ dom people ∖ one →
            (one, two, observed_true people) ∈ evaluated people) as Hin.
  { intros one two H1 H2. apply elem_of_evaluated.
    split; [apply observed_true_consistent|].
    apply elem_of_hypotheses. split_and!; [|done..].
    intros name [_ ?]%elem_of_filter. done. }
  destruct Hk as [-> | [-> | ->]].
  - exists (∅, ∅, observed_true people). split; [by apply Hin|].
    cbn [fst snd]. unfold gene_no.
    by rewrite !bool_decide_eq_false_2 by set_solver.
  - exists ({[who]}, ∅, observed_true people).
    split; [apply Hin; set_solver|].
    cbn [fst snd]. unfold gene_no.
    by rewrite bool_decide_eq_true_2 by set_solver.
  - exists (∅, {[who]}, observed_true people).
    split; [apply Hin; set_solver|].
    cbn [fst snd]. unfold gene_no.
    rewrite bool_decide_eq_false_2 by set_solver.
    by rewrite bool_decide_eq_true_2 by set_solver.
Qed.

Lemma Qcdiv_pos (a b : Qc) : 0 < a → 0 < b → 0 < a / b.
Proof. intros Ha Hb. apply Qcmult_pos_pos; [done | by apply Qcinv_pos]. Qed.

Lemma Qcdiv_nonneg (a b : Qc) : 0 ≤ a → 0 < b → 0 ≤ a / b.
Proof.
  intros Ha Hb. apply Qcmult_nonneg_nonneg; [done|].
  by apply Qclt_le_weak, Qcinv_pos.
Qed.

Lemma Qc_part_lt (a rest : Qc) : 0 < rest → a + rest = 1 → a < 1.
Proof.
  intros Hr <-. apply (Qcplus_lt_mono_l 0 rest a) in Hr.
  by rewrite Qcplus_0_r in Hr.
Qed.

Lemma Qc_part_le (a rest : Qc) : 0 ≤ rest → a + rest = 1 → a ≤ 1.
Proof.
  intros Hr <-. apply (Qcplus_le_mono_l 0 rest a) in Hr.
  by rewrite Qcplus_0_r in Hr.
Qed.



(** ** [update], once more *)

(** X6: [update] never raises and keeps the names of the table; in every
    entry it adds [p] to the gene bucket of the count the hypothesis gives
    the person and to the trait bucket of the person's trait value, and
    leaves the other buckets alone, so both totals grow by [p]. *)
Theorem update_adds (probabilities : gmap string dist)
  (one two ht : gset string) (p : Qc) :
  ∃ probabilities',
    update probabilities one two ht p = Ok probabilities'
    ∧ dom probabilities' = dom probabilities
    ∧ ∀ name d, probabilities !! name = Some d →
        ∃ d', probabilities' !! name = Some d'
          ∧ (∀ k, gene_count k →
               gene_bucket d' k
               = gene_bucket d k
                 + (if decide (gene_no one two name = k) then p else 0))
          ∧ (∀ b, trait_bucket d' b
                  = trait_bucket d b
                    + (if decide (trait_prop ht name = b) then p else 0))
          ∧ gene_sum d' = gene_sum d + p
          ∧ trait_sum d' = trait_sum d + p.
Proof.
  eexists. split; [apply update_spec|]. split.
  - apply set_eq. intros name.
    rewrite !elem_of_dom, map_lookup_imap.
    destruct (probabilities !! name); simpl; split; intros [? ?]; by eauto.
  - intros name d Hd. exists (bump one two ht p name d).
    rewrite map_lookup_imap, Hd. split_and!; [done | | | |].
    + intros k Hk. by destruct (buckets_bump one two ht p name d k true Hk).
    + intros b.
      by destruct (buckets_bump one two ht p name d 0 b ltac:(by left)).
    + by destruct (sums_bump one two ht p name d).
    + by destruct (sums_bump one two ht p name d).
Qed.

(** Two updates can be swapped. *)
Lemma bump_comm (one two ht one' two' ht' : gset string) (p p' : Qc)
  (name : string) (d : dist) :
  bump one two ht p name (bump one' two' ht' p' name d)
  = bump one' two' ht' p' name (bump one two ht p name d).
Proof.
  unfold bump.
  destruct (gene_no_count one two name) as [-> | [-> | ->]],
    (gene_no_count one' two' name) as [-> | [-> | ->]],
    (trait_prop ht name), (trait_prop ht' name);
    cbn [add_trait gene0 gene1 gene2 traitT traitF]; f_equal; ring.
Qed.

Lemma tally_with_Permutation
  (w : gset string * gset string * gset string → Qc)
  (hs hs' : list (gset string * gset string * gset string)) (name : string)
  (d : dist) :
  hs ≡ₚ hs' → tally_with w hs name d = tally_with w hs' name d.
Proof.
  intros Hp. revert d.
  induction Hp as [|h hs hs' _ IH|h h' hs|hs1 hs2 hs3 _ IH1 _ IH2];
    intros d.
  - done.
  - rewrite !tally_with_cons. apply IH.
  - rewrite !tally_with_cons. by rewrite bump_comm.
  - by rewrite IH1, IH2.
Qed.



(** ** Overlapping groups and foreign names *)

Lemma gene_no_restrict (one two D : gset string) (name : string) :
  name ∈ D →
  gene_no (one ∩ D) ((two ∖ one) ∩ D) name = gene_no one two name.
Proof.
  intros HD. unfold gene_no.
  destruct (decide (name ∈ one)) as [H1|H1].
  - rewrite !(bool_decide_eq_true_2 (name ∈ _)); [done | done |].
    by apply elem_of_intersection.
  - rewrite !(bool_decide_eq_false_2 (name ∈ one)) by done.
    rewrite (bool_decide_eq_false_2 (name ∈ one ∩ D))
      by (by intros [? _]%elem_of_intersection).
    rewrite (bool_decide_ext (name ∈ (two ∖ one) ∩ D) (name ∈ two));
      [done|].
    rewrite elem_of_intersection, elem_of_difference. tauto.
Qed.

Lemma trait_prop_restrict (ht D : gset string) (name : string) :
  name ∈ D → trait_prop (ht ∩ D) name = trait_prop ht name.
Proof.
  intros HD. unfold trait_prop.
  rewrite (bool_decide_ext (name ∈ ht ∩ D) (name ∈ ht)); [done|].
  rewrite elem_of_intersection. tauto.
Qed.

Lemma build_request_restrict (names : list string) (one two ht D : gset string) :
  (∀ name, name ∈ names → name ∈ D) →
  build_request names (one ∩ D) ((two ∖ one) ∩ D) (ht ∩ D)
  = build_request names one two ht.
Proof.
  intros HD. apply map_eq. intros name. unfold build_request.
  rewrite !build_request_acc. case_decide as Hin; [|done].
  by rewrite gene_no_restrict, trait_prop_restrict by by apply HD.
Qed.

(** X5: [joint_probability] and [update] read the three sets only at the
    names of their table, and a name that is in both gene groups counts as
    one copy: the result is the same for the sets cut down to the names of
    the table, with the one-copy group removed from the two-copy group. *)
Theorem hypothesis_restriction (people : gmap string person)
  (probabilities : gmap string dist) (one two ht : gset string) (p : Qc) :
  joint_probability people one two ht
  = joint_probability people (one ∩ dom people)
      ((two ∖ one) ∩ dom people) (ht ∩ dom people)
  ∧ update probabilities one two ht p
    = update probabilities (one ∩ dom probabilities)
        ((two ∖ one) ∩ dom probabilities) (ht ∩ dom probabilities) p.
Proof.
  split.
  - unfold joint_probability. cbn zeta.
    rewrite (build_request_restrict (keys people) one two ht (dom people));
      [done|].
    intros name Hn%elem_of_keys. by apply elem_of_dom.
  - rewrite !update_spec. f_equal. apply map_eq. intros name.
    rewrite !map_lookup_imap.
    destruct (probabilities !! name) as [d|] eqn:Hd; [|done]. simpl.
    assert (name ∈ dom probabilities) as HD by (apply elem_of_dom; eauto).
    unfold bump. by rewrite gene_no_restrict, trait_prop_restrict.
Qed.

(** ** [normalize], once more *)

Lemma normalize_raises (probabilities : gmap string dist) :
  map_Exists (λ _ d, zero_total d) probabilities →
  normalize probabilities = Raise ZeroDivisionError.
Proof.
  intros (name & d & Hd & Hz). apply normalize_loop_fail.
  - apply NoDup_keys.
  - intros n Hn. by apply elem_of_keys.
  - exists name, d. split; [|done]. apply elem_of_keys. eauto.
Qed.

Lemma normalize_Ok_inv (probabilities probabilities' : gmap string dist) :
  normalize probabilities = Ok probabilities' →
  (∀ name d, probabilities !! name = Some d → ¬ zero_total d)
  ∧ probabilities' = norm_dist <$> probabilities.
Proof.
  intros E.
  assert (∀ name d, probabilities !! name = Some d → ¬ zero_total d) as Hnz.
  { intros name d Hd Hz.
    rewrite normalize_raises in E; [done|]. by exists name, d. }
  split; [done|]. rewrite (normalize_nonzero _ Hnz) in E. by injection E.
Qed.

Lemma norm_dist_idemp (d : dist) :
  ¬ zero_total d → norm_dist (norm_dist d) = norm_dist d.
Proof.
  intros Hnz.
  destruct (norm_dist_sums d) as [Hg Ht];
    [by intros E; apply Hnz; left | by intros E; apply Hnz; right |].
  unfold norm_dist at 1. rewrite Hg, Ht. unfold Qcdiv.
  assert (/ 1 = 1) as -> by (by apply Qc_is_canon).
  rewrite !Qcmult_1_r. by destruct (norm_dist d).
Qed.



(** ** How many hypotheses are evaluated *)

Local Open Scope nat_scope.

Lemma consistent_trait_sets (people : gmap string person) (ht : gset string) :
  ht ⊆ dom people →
  violates people ht = false
  ↔ ∃ S, S ⊆ unobserved people ∧ ht = observed_true people ∪ S.
Proof.
  intros Hsub. rewrite violates_false. split.
  - intros Hall. exists (ht ∖ observed_true people). split.
    + intros name [Hin Hno]%elem_of_difference.
      pose proof (Hsub _ Hin) as Hdom.
      apply elem_of_dom in Hdom as [pc Hpc].
      apply elem_of_filter. split; [|by apply Hsub].
      specialize (Hall _ _ Hpc). rewrite Hpc. simpl.
      rewrite bool_decide_eq_true_2 in Hall by done.
      destruct (p_trait pc) as [[]|] eqn:Ht; [|done..].
      destruct Hno. apply elem_of_filter. rewrite Hpc. simpl.
      split; [done | by apply Hsub].
    + apply set_eq. intros name.
      rewrite elem_of_union, elem_of_difference. split.
      * intros Hin. destruct (decide (name ∈ observed_true people)); auto.
      * intros [[Ht Hdom]%elem_of_filter | [? _]]; [|done].
        apply elem_of_dom in Hdom as [pc Hpc].
        specialize (Hall _ _ Hpc). rewrite Hpc in Ht. simpl in Ht.
        rewrite Ht in Hall. simpl in Hall.
        destruct (decide (name ∈ ht)) as [|Hno]; [done|].
        by rewrite bool_decide_eq_false_2 in Hall.
  - intros (S & HS & ->) name pc Hpc.
    destruct (p_trait pc) as [[]|] eqn:Ht; [| |done]; simpl.
    + rewrite bool_decide_eq_true_2; [done|].
      apply elem_of_union. left. apply elem_of_filter. rewrite Hpc.
      split; [done | apply elem_of_dom; eauto].
    + rewrite bool_decide_eq_false_2; [done|].
      intros [[Hn _]%elem_of_filter | Hn%HS]%elem_of_union.
      * rewrite Hpc in Hn. simpl in Hn. congruence.
      * apply elem_of_filter in Hn as [Hn _].
        rewrite Hpc in Hn. simpl in Hn. congruence.
Qed.

Lemma observed_unobserved_disjoint (people : gmap string person) :
  observed_true people ## unobserved people.
Proof.
  intros name [H1 _]%elem_of_filter [H2 _]%elem_of_filter. congruence.
Qed.

Lemma consistent_trait_sets_count (people : gmap string person) :
  length (filter (λ ht, violates people ht = false)
            (powerset (dom people)))
  = 2 ^ size (unobserved people).
Proof.
  rewrite <- length_powerset.
  rewrite <- (length_fmap (λ S, observed_true people ∪ S)
                (powerset (unobserved people))).
  apply Permutation_length, NoDup_Permutation.
  - apply NoDup_filter, NoDup_powerset.
  - apply NoDup_fmap_2_strong; [|apply NoDup_powerset].
    intros S S' HS%elem_of_powerset HS'%elem_of_powerset E.
    pose proof (observed_unobserved_disjoint people) as Hd.
    apply set_eq. intros name. split; intros Hin.
    + assert (name ∈ observed_true people ∪ S') as [Ho|]%elem_of_union
        by (rewrite <- E; apply elem_of_union; by right); [|done].
      destruct (Hd name Ho). by apply HS.
    + assert (name ∈ observed_true people ∪ S) as [Ho|]%elem_of_union
        by (rewrite E; apply elem_of_union; by right); [|done].
      destruct (Hd name Ho). by apply HS'.
  - intros ht. rewrite list_elem_of_filter, elem_of_powerset,
      list_elem_of_fmap. split.
    + intros [Hv Hsub]. apply consistent_trait_sets in Hv as (S & HS & ->);
        [|done].
      exists S. split; [done|]. by apply elem_of_powerset.
    + intros (S & -> & HS%elem_of_powerset).
      assert (observed_true people ∪ S ⊆ dom people) as Hsub.
      { intros name [[_ ?]%elem_of_filter | Hn%HS]%elem_of_union; [done|].
        by apply elem_of_filter in Hn as [_ ?]. }
      split; [|done]. apply consistent_trait_sets; [done|]. by exists S.
Qed.

Lemma filter_all {B : Type} (P : B → Prop) `{!∀ b, Decision (P b)}
  (l : list B) :
  Forall P l → filter P l = l.
Proof.
  induction 1 as [|b l Hb _ IH]; [done|].
  by rewrite filter_cons_True, IH.
Qed.

Lemma filter_none {B : Type} (P : B → Prop) `{!∀ b, Decision (P b)}
  (l : list B) :
  Forall (λ b, ¬ P b) l → filter P l = [].
Proof.
  induction 1 as [|b l Hb _ IH]; [done|].
  by rewrite filter_cons_False.
Qed.

Lemma length_filter_bind {B C : Type} (P : C → Prop) `{!∀ c, Decision (P c)}
  (f : B → list C) (l : list B) :
  length (filter P (l ≫= f))
  = sum_list_with (λ b, length (filter P (f b))) l.
Proof.
  induction l as [|b l IH]; [done|].
  rewrite bind_cons, filter_app, length_app, IH. done.
Qed.

Lemma sum_list_with_indicator {B : Type} (Q : B → Prop)
  `{!∀ b, Decision (Q b)} (c : nat) (l : list B) :
  sum_list_with (λ b, if decide (Q b) then c else 0) l
  = c * length (filter Q l).
Proof.
  induction l as [|b l IH]; simpl; [lia|].
  rewrite IH, filter_cons. destruct (decide (Q b)); simpl; lia.
Qed.

(** X13: the number of hypotheses that reach [joint_probability] is
    3^n * 2^u for n people of whom u have no observation: the evidence
    fixes the trait of the observed people and leaves every combination for
    the others. *)
Theorem evaluated_count (people : gmap string person) :
  length (evaluated people)
  = 3 ^ size (dom people) * 2 ^ size (unobserved people).
Proof.
  unfold evaluated, hypotheses. rewrite length_filter_bind.
  rewrite (sum_list_with_ext_in _
    (λ ht, if decide (violates people ht = false)
           then 3 ^ size (dom people) else 0)).
  - by rewrite sum_list_with_indicator, consistent_trait_sets_count.
  - intros ht _. destruct (decide (violates people ht = false)) as [Hv|Hv].
    + rewrite <- length_gene_pairs,
        <- (length_fmap (λ '(one_gene, two_genes), (one_gene, two_genes, ht))
              (gene_pairs (dom people))).
      f_equal. apply filter_all, list.Forall_forall.
      intros [[one two] ht'].
      by intros ([? ?] & [= _ _ ->] & _)%list_elem_of_fmap.
    + assert (filter (λ h, violates people h.2 = false)
                ((λ '(one_gene, two_genes), (one_gene, two_genes, ht))
                   <$> gene_pairs (dom people)) = []) as ->; [|done].
      apply filter_none, list.Forall_forall. intros [[one two] ht'].
      by intros ([? ?] & [= _ _ ->] & _)%list_elem_of_fmap.
Qed.

(** ** The order of [powerset] *)

Lemma combinations_elem {A : Type} (l : list A) (r : nat) (t : list A) :
  t ∈ combinations l r → length t = r ∧ t `sublist_of` l.
Proof.
  revert r t. induction l as [|x l IH]; intros [|r] t; cbn [combinations].
  - intros ->%list_elem_of_singleton. split; [done | constructor].
  - by intros ?%elem_of_nil.
  - intros ->%list_elem_of_singleton. split; [done | apply sublist_nil_l].
  - rewrite elem_of_app, list_elem_of_fmap.
    intros [(t' & -> & [<- Hs]%IH) | [<- Hs]%IH].
    + split; [done | by constructor].
    + split; [done | by constructor].
Qed.

Lemma combinations_full {A : Type} (l : list A) :
  combinations l (length l) = [l].
Proof.
  induction l as [|x l IH]; [done|].
  cbn [length combinations]. rewrite IH.
  by rewrite (combinations_too_long l (S (length l))) by lia.
Qed.

Lemma bind_seq_bounds {C : Type} (f : nat → list C) (m : C → nat)
  (a n : nat) (x : C) :
  (∀ r y, y ∈ f r → m y = r) →
  x ∈ seq a n ≫= f → a ≤ m x < a + n.
Proof.
  intros Hm (r & Hx & Hr%elem_of_seq)%list_elem_of_bind.
  rewrite (Hm _ _ Hx). lia.
Qed.

Lemma bind_seq_sorted {C : Type} (f : nat → list C) (m : C → nat)
  (a n i j : nat) (x y : C) :
  (∀ r y, y ∈ f r → m y = r) →
  i ≤ j → (seq a n ≫= f) !! i = Some x → (seq a n ≫= f) !! j = Some y →
  m x ≤ m y.
Proof.
  intros Hm. revert a i j. induction n as [|n IH]; intros a i j Hij; [done|].
  cbn [seq]. rewrite bind_cons.
  intros [Hi | [Hi1 Hi2]]%lookup_app_Some [Hj | [Hj1 Hj2]]%lookup_app_Some.
  - apply list_elem_of_lookup_2 in Hi, Hj.
    by rewrite (Hm _ _ Hi), (Hm _ _ Hj).
  - apply list_elem_of_lookup_2 in Hi, Hj2.
    rewrite (Hm _ _ Hi).
    pose proof (bind_seq_bounds f m _ _ _ Hm Hj2). lia.
  - apply lookup_lt_Some in Hj. lia.
  - apply (IH (S a) (i - length (f a)) (j - length (f a))); [lia | done..].
Qed.

(** X15: [powerset] lists the subsets by size, smallest first: the empty
    set comes first, the whole set last, and no set stands before a smaller
    one. *)
Theorem powerset_order (s : gset string) :
  head (powerset s) = Some ∅
  ∧ last (powerset s) = Some s
  ∧ ∀ i j a b, i ≤ j →
      powerset s !! i = Some a → powerset s !! j = Some b →
      size a ≤ size b.
Proof.
  unfold powerset. split_and!.
  - replace (length (elements s) + 1) with (S (length (elements s))) by lia.
    cbn [seq]. by rewrite bind_cons, combinations_0.
  - replace (length (elements s) + 1) with (S (length (elements s))) by lia.
    rewrite seq_S, bind_app, bind_singleton. cbn [plus].
    rewrite combinations_full, fmap_last, last_snoc. cbn [fmap option_fmap
      option_map]. by rewrite list_to_set_elements_L.
  - intros i j a b Hij.
    rewrite !list_lookup_fmap.
    destruct (_ !! i) as [ta|] eqn:Ha; [|done].
    destruct (_ !! j) as [tb|] eqn:Hb; [|done].
    intros [= <-] [= <-].
    assert (∀ t, t ∈ seq 0 (length (elements s) + 1)
                       ≫= combinations (elements s) →
                 size (list_to_set t : gset string) = length t) as Hsize.
    { intros t (r & [_ Hsub]%combinations_elem & _)%list_elem_of_bind.
      apply (size_list_to_set (C := gset string)).
      apply (sublist_NoDup t (elements s)); [apply NoDup_elements | done]. }
    rewrite (Hsize ta), (Hsize tb) by (by eapply list_elem_of_lookup_2).
    apply (bind_seq_sorted (combinations (elements s)) length
             0 (length (elements s) + 1) i j); [|done..].
    intros r y Hy. by apply combinations_elem in Hy as [? _].
Qed.

(** ** [fails_evidence] *)

(** X14: over the names of the table [fails_evidence] never raises; it
    answers [True] exactly when some person with an observed trait is given
    the other value by the trait set. *)
Theorem fails_evidence_contradiction (people : gmap string person)
  (have_trait : gset string) :
  ∃ fails,
    fails_evidence people (dom people) have_trait = Ok fails
    ∧ (fails = true ↔
       ∃ who pc b, people !! who = Some pc ∧ p_trait pc = Some b
                   ∧ bool_decide (who ∈ have_trait) ≠ b).
Proof.
  exists (violates people have_trait).
  split; [apply fails_evidence_violates|].
  rewrite <- not_false_iff_true, violates_false. split.
  - intros Hnot.
    destruct (decide (map_Exists (λ who pc,
        contradicts (p_trait pc) (bool_decide (who ∈ have_trait)) = true)
        people)) as [(who & pc & Hpc & Hc)|Hno].
    + exists who, pc. destruct (p_trait pc) as [b|] eqn:Hb; [|done].
      exists b. split_and!; [done..|]. simpl in Hc.
      by destruct b, (bool_decide (who ∈ have_trait)).
    + destruct Hnot. intros who pc Hpc.
      destruct (contradicts _ _) eqn:Hc; [|done].
      destruct Hno. by exists who, pc.
  - intros (who & pc & b & Hpc & Hb & Hne) Hall.
    specialize (Hall _ _ Hpc). rewrite Hb in Hall. simpl in Hall.
    by destruct b, (bool_decide (who ∈ have_trait)).
Qed.

(** ** Mother and father *)

Lemma transmit_error (request : gmap string req) (v : option string) (k : Z)
  (e : exn) :
  transmit request v k = Raise e → e = KeyError.
Proof.
  unfold transmit, getitem. destruct v as [s|]; [|by intros [= <-]].
  destruct (request !! s) as [r|]; [|by intros [= <-]].
  rewrite bind_Ok. unfold PARENT_PROB_parent.
  repeat case_match; (by intros [= <-]) || done.
Qed.



(** ** Proportions *)

Local Open Scope Qc_scope.


